(** * holo-archived-videos: catalog filter, tag vocabulary and playback session

    A shallow embedding of the logic of the video-archive page:

    - [AppFull]   : the single-file application (first [App.tsx] document):
                    [useFilteredVideos] over title, description and tags,
                    and the [UniqueTags] vocabulary;
    - [AppRouted] : the routed application (second [App.tsx] document) with
                    the hook of [hooks/useFilteredVideos.ts] and the tag list
                    computed inside [ArchiveHome];
    - [Player]    : the [VideoPlayer] component as a state machine over the
                    events a mounted player can receive;
    - [Modal]     : the player inside [App]: the [open] state, the cards
                    that set it and the instance of [VideoPlayer] that
                    outlives a change of its [video] prop.

    Strings are sequences of code units.  The model keeps the code units
    below 256 (Basic Latin and Latin-1 Supplement), where [trim] and
    [toLowerCase] are given exactly as ECMAScript defines them. *)

From Stdlib Require Import List String Ascii Bool Arith NArith Lia.
From Stdlib Require Import Sorting.Sorted Sorting.Permutation.
From Stdlib Require OrderedTypeEx.
Import ListNotations.

Local Open Scope list_scope.
Local Open Scope string_scope.

(* ------------------------------------------------------------------ *)
(** * ECMAScript string primitives used by the page *)
(* ------------------------------------------------------------------ *)

(** [WhiteSpace] and [LineTerminator] code units below 256:
    TAB, LF, VT, FF, CR, SP and NBSP. *)
Definition isWhiteSpace (c : ascii) : bool :=
  let n := N_of_ascii c in
  ((9 <=? n) && (n <=? 13) || (n =? 32) || (n =? 160))%N.

(** [String.prototype.trimStart]. *)
Fixpoint trimStart (s : string) : string :=
  match s with
  | EmptyString => EmptyString
  | String c s' => if isWhiteSpace c then trimStart s' else s
  end.

(** [String.prototype.trimEnd]. *)
Fixpoint trimEnd (s : string) : string :=
  match s with
  | EmptyString => EmptyString
  | String c s' =>
      match trimEnd s' with
      | EmptyString => if isWhiteSpace c then EmptyString else String c EmptyString
      | r => String c r
      end
  end.

(** [String.prototype.trim]. *)
Definition trim (s : string) : string := trimEnd (trimStart s).

(** Lower-case mapping of one code unit: A-Z, and the Latin-1 capitals
    U+00C0..U+00DE without the multiplication sign U+00D7. *)
Definition lowerChar (c : ascii) : ascii :=
  let n := N_of_ascii c in
  if ((65 <=? n) && (n <=? 90) ||
      (192 <=? n) && (n <=? 222) && negb (n =? 215))%N
  then ascii_of_N (n + 32)
  else c.

(** [String.prototype.toLowerCase]. *)
Fixpoint toLowerCase (s : string) : string :=
  match s with
  | EmptyString => EmptyString
  | String c s' => String (lowerChar c) (toLowerCase s')
  end.

(** [s.includes(sub)]: [sub] occurs in [s] at some position. *)
Fixpoint includes (s sub : string) : bool :=
  String.prefix sub s ||
  match s with
  | EmptyString => false
  | String _ s' => includes s' sub
  end.

(** [Boolean(s)] for a string: only the empty string is falsy. *)
Definition truthy (s : string) : bool :=
  match s with
  | EmptyString => false
  | String _ _ => true
  end.

(** [Boolean(x)] for [string | null] and [string | undefined]. *)
Definition truthyOpt (x : option string) : bool :=
  match x with
  | None => false
  | Some s => truthy s
  end.

(** [xs.filter(Boolean)] on an array of [string | undefined]. *)
Fixpoint filterBoolean (xs : list (option string)) : list string :=
  match xs with
  | [] => []
  | Some s :: xs' => if truthy s then s :: filterBoolean xs' else filterBoolean xs'
  | None :: xs' => filterBoolean xs'
  end.

(** [tags.join(" ")]. *)
Definition join (sep : string) (xs : list string) : string := String.concat sep xs.

(** [v.tags?.includes(t)], read as a condition: an absent [tags] gives
    [undefined], which is falsy. *)
Definition tagsInclude (tags : option (list string)) (t : string) : bool :=
  match tags with
  | None => false
  | Some ts => existsb (String.eqb t) ts
  end.

(** [set.add(t)] on a [Set<string>]: insertion order is kept and a value
    already present is not added again. *)
Definition setAdd (set : list string) (t : string) : list string :=
  if existsb (String.eqb t) set then set else (set ++ [t])%list.

(** [Array.prototype.sort] without comparator on an array of strings:
    ascending order of code units.  The result of any correct sort is the
    same; insertion keeps the definition structural. *)
Fixpoint insertSorted (t : string) (xs : list string) : list string :=
  match xs with
  | [] => [t]
  | x :: xs' => if String.leb t x then t :: xs else x :: insertSorted t xs'
  end.

Fixpoint sort (xs : list string) : list string :=
  match xs with
  | [] => []
  | x :: xs' => insertSorted x (sort xs')
  end.

(* ------------------------------------------------------------------ *)
(** * The single-file application *)
(* ------------------------------------------------------------------ *)

Module AppFull.

Inductive SourceType : Set := mp4 | hls.

Record VideoSource : Set := {
  label : string;
  type : SourceType;
  src : string
}.

Record VideoItem : Set := {
  id : string;
  title : string;
  description : option string;
  date : option string;
  duration : option string;
  tags : option (list string);
  thumbnail : option string;
  sources : list VideoSource
}.

(** The three searched texts of an item, before [filter(Boolean)]. *)
Definition searchTexts (v : VideoItem) : list (option string) :=
  [Some (title v); description v; option_map (join " ") (tags v)].

(** The callback of [all.filter] in the search stage. *)
Definition matchesSearch (query : string) (v : VideoItem) : bool :=
  existsb (fun txt => includes (toLowerCase txt) query)
          (filterBoolean (searchTexts v)).

Definition useFilteredVideos
    (all : list VideoItem) (q : string) (activeTag : option string)
    : list VideoItem :=
  let query := toLowerCase (trim q) in
  let bySearch :=
    if negb (truthy query) then all
    else filter (matchesSearch query) all in
  let byTag :=
    if negb (truthyOpt activeTag) then bySearch
    else
      match activeTag with
      | Some t => filter (fun v => tagsInclude (tags v) t) bySearch
      | None => bySearch
      end in
  byTag.

(** The [Set] filled by the two nested [forEach] loops of [UniqueTags]. *)
Definition collectTags (videos : list VideoItem) : list string :=
  fold_left
    (fun set v =>
       match tags v with
       | Some ts => fold_left setAdd ts set
       | None => set
       end)
    videos [].

(** [const tags = Array.from(set).sort()] in [UniqueTags]. *)
Definition uniqueTags (videos : list VideoItem) : list string :=
  sort (collectTags videos).

End AppFull.

(* ------------------------------------------------------------------ *)
(** * The routed application and its hook *)
(* ------------------------------------------------------------------ *)

Module AppRouted.

Record VideoItem : Set := {
  id : string;
  title : string;
  src : string;
  tags : option (list string)
}.

(** The two entries of the [VIDEOS] literal. *)
Definition videoV1 : VideoItem :=
  {| id := "v1"; title := "Sample Video 1";
     src := "https://www.w3schools.com/html/mov_bbb.mp4";
     tags := Some ["funny"; "short"] |}.

Definition videoV2 : VideoItem :=
  {| id := "v2"; title := "Sample Video 2";
     src := "https://www.w3schools.com/html/movie.mp4";
     tags := Some ["music"; "live"] |}.

Definition VIDEOS : list VideoItem := [videoV1; videoV2].

(** [hooks/useFilteredVideos.ts]: the guard tests [query.trim()], the
    match uses [query.toLowerCase()]. *)
Definition useFilteredVideos
    (videos : list VideoItem) (query : string) (activeTag : option string)
    : list VideoItem :=
  let list := videos in
  let list :=
    if truthy (trim query) then
      let lower := toLowerCase query in
      filter (fun v => includes (toLowerCase (title v)) lower) list
    else list in
  let list :=
    if truthyOpt activeTag then
      match activeTag with
      | Some t => filter (fun v => tagsInclude (tags v) t) list
      | None => list
      end
    else list in
  list.

(** [Array.from(new Set(videos.flatMap(v => v.tags || [])))] in
    [ArchiveHome]. *)
Definition archiveHomeTags (videos : list VideoItem) : list string :=
  fold_left setAdd
    (flat_map (fun v => match tags v with Some ts => ts | None => [] end) videos)
    [].

End AppRouted.

(* ------------------------------------------------------------------ *)
(** * The playback session: [VideoPlayer] as a state machine *)
(* ------------------------------------------------------------------ *)

Module Player.
Import AppFull.

(** What the browser answers to the two capability probes, and whether
    [videoRef.current] holds the element when the effect runs. *)
Record Env : Set := {
  isSupported : bool;        (* Hls.isSupported() *)
  canPlayType : string;      (* el.canPlayType("application/vnd.apple.mpegurl") *)
  refCurrent : bool          (* videoRef.current !== null *)
}.

(** An [Hls] object made by [new Hls(...)], after [loadSource],
    [attachMedia] and the registration of the MANIFEST_PARSED listener. *)
Record HlsInstance : Set := {
  hlsId : nat;
  loadedSource : string
}.

Inductive Phase : Set :=
| Mounted      (* the component is on screen *)
| Closed       (* unmounted through [onClose] *)
| Crashed.     (* the effect threw *)

Record State : Set := {
  phase : Phase;
  active : option VideoSource;     (* useState(video.sources[0]); None is undefined *)
  activeIx : nat;                  (* which element of video.sources it is (object identity) *)
  canPlay : bool;                  (* useState(false) *)
  elSrc : option string;           (* the src attribute of the video element *)
  live : list HlsInstance;         (* Hls objects created and not destroyed *)
  nextId : nat;                    (* identity of the next Hls object *)
  cleanup : option (option nat)    (* closure returned by the last effect, with its [hls] *)
}.

(** The state of the first render: the two [useState] initialisers. *)
Definition initial (video : VideoItem) : State :=
  {| phase := Mounted;
     active := nth_error (sources video) 0;
     activeIx := 0;
     canPlay := false;
     elSrc := None;
     live := [];
     nextId := 0;
     cleanup := None |}.

(** The body of the effect, run after a commit in which [active] changed. *)
Definition effect (env : Env) (st : State) : State :=
  if negb (refCurrent env) then
    (* if (!el) return; *)
    {| phase := phase st; active := active st; activeIx := activeIx st;
       canPlay := canPlay st; elSrc := elSrc st; live := live st;
       nextId := nextId st; cleanup := None |}
  else
    match active st with
    | None =>
        (* active.type on undefined *)
        {| phase := Crashed; active := None; activeIx := activeIx st;
           canPlay := canPlay st; elSrc := elSrc st; live := live st;
           nextId := nextId st; cleanup := None |}
    | Some a =>
        match type a with
        | hls =>
            if isSupported env then
              let h := {| hlsId := nextId st; loadedSource := src a |} in
              {| phase := phase st; active := active st; activeIx := activeIx st;
                 canPlay := canPlay st; elSrc := elSrc st;
                 live := h :: live st;
                 nextId := S (nextId st);
                 cleanup := Some (Some (hlsId h)) |}
            else if truthy (canPlayType env) then
              {| phase := phase st; active := active st; activeIx := activeIx st;
                 canPlay := true; elSrc := Some (src a); live := live st;
                 nextId := nextId st; cleanup := Some None |}
            else
              {| phase := phase st; active := active st; activeIx := activeIx st;
                 canPlay := false; elSrc := elSrc st; live := live st;
                 nextId := nextId st; cleanup := Some None |}
        | mp4 =>
            {| phase := phase st; active := active st; activeIx := activeIx st;
               canPlay := true; elSrc := Some (src a); live := live st;
               nextId := nextId st; cleanup := Some None |}
        end
    end.

(** [hls.destroy()] on the object the closure captured. *)
Definition destroy (h : option nat) (l : list HlsInstance) : list HlsInstance :=
  match h with
  | None => l
  | Some i => filter (fun x => negb (Nat.eqb (hlsId x) i)) l
  end.

(** The closure returned by the effect: destroy its [hls], then pause the
    element, remove its src attribute and reload it. *)
Definition runCleanup (st : State) : State :=
  match cleanup st with
  | None => st
  | Some h =>
      {| phase := phase st; active := active st; activeIx := activeIx st;
         canPlay := canPlay st; elSrc := None; live := destroy h (live st);
         nextId := nextId st; cleanup := None |}
  end.

(** [setActive(s)] for the element [s] of [video.sources] at index [i]. *)
Definition setActive (i : nat) (s : VideoSource) (st : State) : State :=
  {| phase := phase st; active := Some s; activeIx := i;
     canPlay := canPlay st; elSrc := elSrc st; live := live st;
     nextId := nextId st; cleanup := cleanup st |}.

Definition setCanPlay (b : bool) (st : State) : State :=
  {| phase := phase st; active := active st; activeIx := activeIx st;
     canPlay := b; elSrc := elSrc st; live := live st;
     nextId := nextId st; cleanup := cleanup st |}.

Definition unmount (st : State) : State :=
  {| phase := Closed; active := active st; activeIx := activeIx st;
     canPlay := canPlay st; elSrc := elSrc st; live := live st;
     nextId := nextId st; cleanup := cleanup st |}.

Inductive Event : Set :=
| SelectSource (i : nat)      (* click on the i-th button of SourceSelector *)
| ManifestParsed (h : nat)    (* Hls.Events.MANIFEST_PARSED from object h *)
| Close.                      (* click on the close button *)

(** One event, handled to completion: state update, commit, cleanup of
    the previous effect and the new effect. *)
Definition step (env : Env) (video : VideoItem) (st : State) (ev : Event) : State :=
  match phase st with
  | Mounted =>
      match ev with
      | SelectSource i =>
          match nth_error (sources video) i with
          | None => st                       (* no such button *)
          | Some s =>
              if Nat.eqb i (activeIx st) then st    (* same object: no re-render *)
              else effect env (setActive i s (runCleanup st))
          end
      | ManifestParsed h =>
          if existsb (fun x => Nat.eqb (hlsId x) h) (live st)
          then setCanPlay true st
          else st                            (* a destroyed object emits nothing *)
      | Close => unmount (runCleanup st)
      end
  | _ => st
  end.

(** Opening a card: first render, then the effect of the mount. *)
Definition openPlayer (env : Env) (video : VideoItem) : State :=
  effect env (initial video).

Definition run (env : Env) (video : VideoItem) (evs : list Event) : State :=
  fold_left (step env video) evs (openPlayer env video).

(** Playback resources held at an observation point: live streaming
    clients, plus the element when a source is assigned to it. *)
Definition attached (st : State) : nat :=
  List.length (live st) + match elSrc st with Some _ => 1 | None => 0 end.

End Player.

(* ------------------------------------------------------------------ *)
(** * Vocabulary of the statements *)
(* ------------------------------------------------------------------ *)

(** [sub] occurs in [s] as a contiguous run of code units. *)
Definition Substring (sub s : string) : Prop :=
  exists pre post, s = pre ++ sub ++ post.

(** A string made of white space only. *)
Fixpoint allWhite (s : string) : bool :=
  match s with
  | EmptyString => true
  | String c s' => isWhiteSpace c && allWhite s'
  end.

(** The normal form of a query: trimmed, then case-folded. *)
Definition normalize (q : string) : string := toLowerCase (trim q).

(** Strict code-unit order on strings. *)
Definition strLt (a b : string) : Prop := String.compare a b = Lt.

(** The three ways an item of the single-file application can match a
    normalized query. *)
Definition InTitle (query : string) (v : AppFull.VideoItem) : Prop :=
  Substring query (toLowerCase (AppFull.title v)).

Definition InDescription (query : string) (v : AppFull.VideoItem) : Prop :=
  exists d, AppFull.description v = Some d /\ Substring query (toLowerCase d).

Definition InJoinedTags (query : string) (v : AppFull.VideoItem) : Prop :=
  exists ts, AppFull.tags v = Some ts /\
             Substring query (toLowerCase (join " " ts)).

Definition MatchesText (query : string) (v : AppFull.VideoItem) : Prop :=
  InTitle query v \/ InDescription query v \/ InJoinedTags query v.

(** The item carries the tag [t]: its tag list is present and has an
    element equal to [t]. *)
Definition HasTag (t : string) (v : AppFull.VideoItem) : Prop :=
  exists ts, AppFull.tags v = Some ts /\ In t ts.

(** The tag stage of the single-file filter: nothing is asked when the
    selection is falsy ([null] or the empty string). *)
Definition PassesTag (activeTag : option string) (v : AppFull.VideoItem) : Prop :=
  match activeTag with
  | Some t => t <> "" -> HasTag t v
  | None => True
  end.

(** The same notions for the items of the routed application. *)
Definition HasTagR (t : string) (v : AppRouted.VideoItem) : Prop :=
  exists ts, AppRouted.tags v = Some ts /\ In t ts.

Definition PassesTagR (activeTag : option string) (v : AppRouted.VideoItem) : Prop :=
  match activeTag with
  | Some t => t <> "" -> HasTagR t v
  | None => True
  end.

(** The text stage of the hook: the guard looks at the trimmed query, the
    test at the case-folded, untrimmed query and the title only. *)
Definition PassesTextR (query : string) (v : AppRouted.VideoItem) : Prop :=
  trim query <> "" ->
  Substring (toLowerCase query) (toLowerCase (AppRouted.title v)).

(** The catalog of the scenario, as items of the single-file application:
    one progressive source each, no description. *)
Definition scenarioItem (i t u : string) (ts : list string) : AppFull.VideoItem :=
  {| AppFull.id := i;
     AppFull.title := t;
     AppFull.description := None;
     AppFull.date := None;
     AppFull.duration := None;
     AppFull.tags := Some ts;
     AppFull.thumbnail := None;
     AppFull.sources :=
       [ {| AppFull.label := "MP4"; AppFull.type := AppFull.mp4; AppFull.src := u |} ] |}.

Definition scenarioV1 : AppFull.VideoItem :=
  scenarioItem "v1" "Sample Video 1" "https://www.w3schools.com/html/mov_bbb.mp4"
               ["funny"; "short"].

Definition scenarioV2 : AppFull.VideoItem :=
  scenarioItem "v2" "Sample Video 2" "https://www.w3schools.com/html/movie.mp4"
               ["music"; "live"].

Definition scenario : list AppFull.VideoItem := [scenarioV1; scenarioV2].

(** Two items for the tag stage: one tagged with the empty string, one
    with an ordinary tag. *)
Definition emptyTagItem : AppFull.VideoItem :=
  scenarioItem "a" "Untitled" "https://example.com/a.mp4" [""].

Definition plainTagItem : AppFull.VideoItem :=
  scenarioItem "b" "Concert" "https://example.com/b.mp4" ["live"].

(** The shape of a player state between two events: the live streaming
    clients are exactly the one the pending cleanup will destroy, a source
    is assigned to the element only while a cleanup is pending, and a
    player that is no longer mounted has no cleanup left. *)
Definition Consistent (st : Player.State) : Prop :=
  match Player.cleanup st with
  | Some (Some h) =>
      (exists u, Player.live st = [ {| Player.hlsId := h; Player.loadedSource := u |} ]) /\
      Player.elSrc st = None /\ Player.phase st = Player.Mounted
  | Some None => Player.live st = [] /\ Player.phase st = Player.Mounted
  | None => Player.live st = [] /\ Player.elSrc st = None
  end.

(** The active source is the element of the source list it was taken
    from; it is undefined only for an item without sources. *)
Definition ActiveIsSource (video : AppFull.VideoItem) (st : Player.State) : Prop :=
  Player.active st = nth_error (AppFull.sources video) (Player.activeIx st) /\
  (Player.active st = None -> AppFull.sources video = []).

(** Without any way to play a playlist, nothing is ever ready on an
    adaptive source. *)
Definition NothingPlayable (env : Player.Env) (st : Player.State) : Prop :=
  Player.live st = [] /\
  (Player.refCurrent env = false -> Player.canPlay st = false) /\
  (forall s, Player.active st = Some s -> AppFull.type s = AppFull.hls ->
             Player.canPlay st = false /\ Player.elSrc st = None).

(** A browser with Media Source Extensions and no native playlist support. *)
Definition mseBrowser : Player.Env :=
  {| Player.isSupported := true; Player.canPlayType := ""; Player.refCurrent := true |}.

(** A browser with neither. *)
Definition bareBrowser : Player.Env :=
  {| Player.isSupported := false; Player.canPlayType := ""; Player.refCurrent := true |}.

Definition hlsSource : AppFull.VideoSource :=
  {| AppFull.label := "Auto (HLS)"; AppFull.type := AppFull.hls;
     AppFull.src := "https://example.com/playlist.m3u8" |}.

Definition mp4Source : AppFull.VideoSource :=
  {| AppFull.label := "720p MP4"; AppFull.type := AppFull.mp4;
     AppFull.src := "https://example.com/video-720.mp4" |}.

(** The entry shown in the page footer: a playlist with an MP4 fallback. *)
Definition talk : AppFull.VideoItem :=
  {| AppFull.id := "my-001";
     AppFull.title := "My Archived Talk";
     AppFull.description := Some "Conference 2023, Room A";
     AppFull.date := Some "2023-09-18";
     AppFull.duration := Some "45:12";
     AppFull.tags := Some ["talk"; "conference"];
     AppFull.thumbnail := Some "https://example.com/thumb.jpg";
     AppFull.sources := [hlsSource; mp4Source] |}.

(** The same entry with the MP4 listed first. *)
Definition talkMp4First : AppFull.VideoItem :=
  {| AppFull.id := "my-002";
     AppFull.title := "My Archived Talk";
     AppFull.description := None;
     AppFull.date := None;
     AppFull.duration := None;
     AppFull.tags := None;
     AppFull.thumbnail := None;
     AppFull.sources := [mp4Source; hlsSource] |}.

(* ------------------------------------------------------------------ *)
(** * Presentation helpers and views *)
(* ------------------------------------------------------------------ *)

(** An argument of [classNames]: [string | false | null | undefined]. *)
Inductive ClassArg : Set :=
| ClassStr (s : string)
| ClassFalse
| ClassNull
| ClassUndefined.

(** [xs.filter(Boolean)] on such arguments: the non-empty strings. *)
Fixpoint keptClasses (xs : list ClassArg) : list string :=
  match xs with
  | [] => []
  | ClassStr s :: xs' => if truthy s then s :: keptClasses xs' else keptClasses xs'
  | _ :: xs' => keptClasses xs'
  end.

(** [classNames(...xs)]. *)
Definition classNames (xs : list ClassArg) : string :=
  join " " (keptClasses xs).

(** [active === t] for [active : string | null] and a string [t]. *)
Definition strictEq (active : option string) (t : string) : bool :=
  match active with
  | Some a => String.eqb a t
  | None => false
  end.

(** [active === null]. *)
Definition isNull (active : option string) : bool :=
  match active with
  | Some _ => false
  | None => true
  end.

Module Views.

Definition pillOn : string := "bg-black text-white".
Definition pillOff : string := "bg-white hover:bg-gray-50".

(** A button of [UniqueTags]: its class, the argument it gives to
    [onPick], its tooltip and its text. *)
Record TagButton : Set := {
  tagClass : string;
  tagPick : option string;
  tagTitle : string;
  tagText : string
}.

Definition allButton (active : option string) : TagButton :=
  {| tagClass :=
       classNames [ClassStr "px-3 py-1 rounded-full text-sm border";
                   ClassStr (if isNull active then pillOn else pillOff)];
     tagPick := None;
     tagTitle := "Show all";
     tagText := "All" |}.

Definition tagButton (active : option string) (t : string) : TagButton :=
  {| tagClass :=
       classNames [ClassStr "px-3 py-1 rounded-full text-sm border";
                   ClassStr (if strictEq active t then pillOn else pillOff)];
     tagPick := Some t;
     tagTitle := "Filter: " ++ t;
     tagText := "#" ++ t |}.

(** What [UniqueTags] renders: [None] is the [null] of an empty
    vocabulary. *)
Definition UniqueTags (videos : list AppFull.VideoItem) (active : option string)
  : option (list TagButton) :=
  let tags := AppFull.uniqueTags videos in
  if Nat.eqb (List.length tags) 0 then None
  else Some (allButton active :: map (tagButton active) tags).

(** A button of [SourceSelector]. *)
Record SourceButton : Set := {
  srcKey : string;
  srcClass : string;
  srcTarget : AppFull.VideoSource;      (* the argument given to onSelect *)
  srcTitle : string;
  srcText : string
}.

Definition sourceButton (current s : AppFull.VideoSource) : SourceButton :=
  {| srcKey := AppFull.label s ++ AppFull.src s;
     srcClass :=
       classNames [ClassStr "px-3 py-1 rounded-full border text-sm";
                   ClassStr (if String.eqb (AppFull.src s) (AppFull.src current)
                             then pillOn else pillOff)];
     srcTarget := s;
     srcTitle := "Switch to " ++ AppFull.label s;
     srcText := AppFull.label s |}.

(** What [SourceSelector] renders; [None] when reading [current.src]
    throws, that is when [current] is undefined and there is a source to
    map over. *)
Definition SourceSelector
    (sources : list AppFull.VideoSource) (current : option AppFull.VideoSource)
  : option (list SourceButton) :=
  match sources, current with
  | [], _ => Some []
  | _ :: _, None => None
  | _ :: _, Some cur => Some (map (sourceButton cur) sources)
  end.

(** The selector as [VideoPlayer] renders it in a state of the session. *)
Definition playerSelector (video : AppFull.VideoItem) (st : Player.State)
  : option (list SourceButton) :=
  SourceSelector (AppFull.sources video) (Player.active st).

End Views.

(** The routed application: list view, detail view and their wiring. *)
Module RoutedViews.

(** [videos.find((v) => v.id === id)] with the [id] of [useParams],
    which may be undefined. *)
Definition findVideo (videos : list AppRouted.VideoItem) (id : option string)
  : option AppRouted.VideoItem :=
  find (fun v => strictEq id (AppRouted.id v)) videos.

Inductive Page : Set :=
| NotFound                                   (* "Video not found" *)
| VideoDetail (heading videoSrc : string).   (* the title and the video element *)

Definition VideoPage (videos : list AppRouted.VideoItem) (id : option string) : Page :=
  match findVideo videos id with
  | None => NotFound
  | Some video => VideoDetail (AppRouted.title video) (AppRouted.src video)
  end.

Record HomeButton : Set := {
  homeClass : string;
  homePick : option string;      (* the argument given to setActiveTag *)
  homeText : string
}.

Record HomeLink : Set := {
  linkKey : string;
  linkTo : string;
  linkText : string
}.

Record Home : Set := {
  homeButtons : list HomeButton;
  homeLinks : list HomeLink
}.

(** [ArchiveHome]: the "All" button, one button per tag of the videos it
    is given, and one link per video. *)
Definition ArchiveHome (videos : list AppRouted.VideoItem) (activeTag : option string)
  : Home :=
  let tags := AppRouted.archiveHomeTags videos in
  {| homeButtons :=
       {| homeClass := "px-2 py-1 border " ++ (if isNull activeTag then "bg-gray-200" else "");
          homePick := None;
          homeText := "All" |}
       :: map (fun tag =>
                 {| homeClass := "px-2 py-1 border " ++
                                 (if strictEq activeTag tag then "bg-gray-200" else "");
                    homePick := Some tag;
                    homeText := tag |}) tags;
     homeLinks :=
       map (fun v =>
              {| linkKey := AppRouted.id v;
                 linkTo := "/video/" ++ AppRouted.id v;
                 linkText := AppRouted.title v |}) videos |}.

(** The element of the route ["/"] in [App]: [ArchiveHome] receives the
    filtered list. *)
Definition homeRoute (videos : list AppRouted.VideoItem) (query : string)
    (activeTag : option string) : Home :=
  ArchiveHome (AppRouted.useFilteredVideos videos query activeTag) activeTag.

(** React Router is a dependency of the page, not part of it.  A router
    is what it does with the target of a link for the route
    ["/video/:id"]: the value [useParams] then gives for [id], or [None]
    when the location the target leads to does not match the route. *)
Definition Router : Type := string -> option string.

(** What is on screen after a click on a link to [target]: the element
    of the route ["/video/:id"] in [App], that is [VideoPage] with the
    whole catalog and the [id] the router extracted; [None] when the
    route does not match. *)
Definition videoRoute (router : Router) (videos : list AppRouted.VideoItem)
    (target : string) : option Page :=
  match router target with
  | None => None
  | Some id => Some (VideoPage videos (Some id))
  end.

End RoutedViews.

(** Characters that pass through a location unchanged: ASCII letters,
    digits, hyphen and underscore. *)
Definition isPlainChar (c : ascii) : bool :=
  let n := N_of_ascii c in
  ((48 <=? n) && (n <=? 57) || (65 <=? n) && (n <=? 90) ||
   (97 <=? n) && (n <=? 122) || (n =? 45) || (n =? 95))%N.

Fixpoint allPlain (s : string) : bool :=
  match s with
  | EmptyString => true
  | String c s' => isPlainChar c && allPlain s'
  end.

Fixpoint dropPrefix (p s : string) : option string :=
  match p, s with
  | EmptyString, _ => Some s
  | String a p', String b s' => if Ascii.eqb a b then dropPrefix p' s' else None
  | String _ _, EmptyString => None
  end.

(** One router, for the statements that need a concrete one: it answers
    on the targets ["/video/" ++ id] whose id is not empty and made of
    plain characters, with that id, and on no other target. *)
Definition plainRouter : RoutedViews.Router :=
  fun target =>
    match dropPrefix "/video/" target with
    | Some id => if truthy id && allPlain id then Some id else None
    | None => None
    end.

(* ------------------------------------------------------------------ *)
(** * The player inside [App]: the modal and its [open] state *)
(* ------------------------------------------------------------------ *)

(** [App] keeps [open : VideoItem | null] and renders
    [{open && <VideoPlayer video={open} onClose={() => setOpen(null)} />}]
    without a key.  A click on a card calls [setOpen(v)]; the cards stay
    in the document under the overlay and can be reached with the
    keyboard while the player is open.  The instance of [VideoPlayer]
    is then kept and only its [video] prop changes: [active] and
    [canPlay] are state of the instance, and the effect depends on
    [active] alone.

    Items are told apart by their position in the catalog.  A card is on
    screen for the items the filter keeps; the machine allows a click on
    any item of the catalog. *)
Module Modal.

Record State : Set := {
  openIx : option nat;              (* the item held by [open]; None is null *)
  activeOf : nat;                   (* the item whose source list [active] was read from *)
  session : option Player.State     (* the state of the instance of VideoPlayer, if one was made *)
}.

Inductive Event : Set :=
| OpenCard (j : nat)                (* click on the card of the j-th item *)
| InPlayer (ev : Player.Event).     (* an event of the player that is open *)

Definition initial : State :=
  {| openIx := None; activeOf := 0; session := None |}.

(** [setActive(s)] from the i-th button of the selector, for the item
    [video] now shown.  [sameItem] says whether [active] was read from
    this item; only then can [s] be the object [active] already holds. *)
Definition select (env : Player.Env) (video : AppFull.VideoItem) (sameItem : bool)
    (st : Player.State) (i : nat) : Player.State :=
  match Player.phase st with
  | Player.Mounted =>
      match nth_error (AppFull.sources video) i with
      | None => st
      | Some s =>
          if sameItem && Nat.eqb i (Player.activeIx st) then st
          else Player.effect env (Player.setActive i s (Player.runCleanup st))
      end
  | _ => st
  end.

(** Whether the click on the i-th button sets [active] to a source of
    the item shown. *)
Definition selects (video : AppFull.VideoItem) (st : Player.State) (i : nat) : bool :=
  match Player.phase st, nth_error (AppFull.sources video) i with
  | Player.Mounted, Some _ => true
  | _, _ => false
  end.

Definition crashed (h : State) : bool :=
  match session h with
  | Some st => match Player.phase st with Player.Crashed => true | _ => false end
  | None => false
  end.

Definition step (env : Player.Env) (videos : list AppFull.VideoItem)
    (h : State) (ev : Event) : State :=
  if crashed h then h            (* the error boundary has replaced the page *)
  else
    match ev with
    | OpenCard j =>
        match nth_error videos j with
        | None => h                                   (* no such card *)
        | Some v =>
            match openIx h with
            | None =>
                (* open was null: a new instance is mounted *)
                {| openIx := Some j; activeOf := j;
                   session := Some (Player.openPlayer env v) |}
            | Some k =>
                if Nat.eqb j k then h                 (* same object: no re-render *)
                else
                  (* the instance is kept, with its state; only the prop changes *)
                  {| openIx := Some j; activeOf := activeOf h; session := session h |}
            end
        end
    | InPlayer pev =>
        match openIx h, session h with
        | Some k, Some st =>
            match nth_error videos k with
            | None => h
            | Some video =>
                match pev with
                | Player.SelectSource i =>
                    {| openIx := Some k;
                       activeOf := if selects video st i then k else activeOf h;
                       session := Some (select env video (Nat.eqb (activeOf h) k) st i) |}
                | Player.ManifestParsed _ =>
                    {| openIx := Some k; activeOf := activeOf h;
                       session := Some (Player.step env video st pev) |}
                | Player.Close =>
                    {| openIx := None; activeOf := activeOf h;
                       session := Some (Player.step env video st pev) |}
                end
            end
        | _, _ => h                                   (* no player is open *)
        end
    end.

Definition run (env : Player.Env) (videos : list AppFull.VideoItem)
    (evs : list Event) : State :=
  fold_left (step env videos) evs initial.

End Modal.

(** The state of a player that is open belongs to the item shown: its
    active source was read from the source list of that item. *)
Definition ModalInv (videos : list AppFull.VideoItem) (h : Modal.State) : Prop :=
  forall st, Modal.session h = Some st ->
             exists v, nth_error videos (Modal.activeOf h) = Some v /\
                       ActiveIsSource v st.

(* ------------------------------------------------------------------ *)
(** * Vocabulary of the further statements *)
(* ------------------------------------------------------------------ *)

(** [l1] is [l2] with some elements left out, the others in their order. *)
Inductive Subseq {A : Type} : list A -> list A -> Prop :=
| Subseq_nil : Subseq [] []
| Subseq_skip (x : A) (l1 l2 : list A) : Subseq l1 l2 -> Subseq l1 (x :: l2)
| Subseq_keep (x : A) (l1 l2 : list A) : Subseq l1 l2 -> Subseq (x :: l1) (x :: l2).

(** The decision the single-file filter takes on one item. *)
Definition fullKeeps (q : string) (activeTag : option string)
    (v : AppFull.VideoItem) : bool :=
  (negb (truthy (normalize q)) || AppFull.matchesSearch (normalize q) v) &&
  (negb (truthyOpt activeTag) ||
   match activeTag with
   | Some t => tagsInclude (AppFull.tags v) t
   | None => true
   end).

(** The decision the hook takes on one item. *)
Definition hookKeeps (query : string) (activeTag : option string)
    (v : AppRouted.VideoItem) : bool :=
  (negb (truthy (trim query)) ||
   includes (toLowerCase (AppRouted.title v)) (toLowerCase query)) &&
  (negb (truthyOpt activeTag) ||
   match activeTag with
   | Some t => tagsInclude (AppRouted.tags v) t
   | None => true
   end).

(** A button of [UniqueTags] or [SourceSelector] drawn as selected. *)
Definition tagHighlighted (b : Views.TagButton) : bool :=
  String.eqb (Views.tagClass b) "px-3 py-1 rounded-full text-sm border bg-black text-white".

Definition srcHighlighted (b : Views.SourceButton) : bool :=
  String.eqb (Views.srcClass b) "px-3 py-1 rounded-full border text-sm bg-black text-white".

Definition homeHighlighted (b : RoutedViews.HomeButton) : bool :=
  String.eqb (RoutedViews.homeClass b) "px-2 py-1 border bg-gray-200".

(** What is attached plays the active source: a source assigned to the
    element is the URL of the active source, and a live streaming client
    has loaded the URL of the active source, which is a playlist. *)
Definition AttachedIsActive (st : Player.State) : Prop :=
  (forall u, Player.elSrc st = Some u ->
             exists s, Player.active st = Some s /\ u = AppFull.src s) /\
  (forall h, In h (Player.live st) ->
             exists s, Player.active st = Some s /\
                       Player.loadedSource h = AppFull.src s /\
                       AppFull.type s = AppFull.hls).

(** A source that is played by direct assignment: an MP4, or a playlist
    in a browser without the streaming client and with native support. *)
Definition DirectlyPlayed (env : Player.Env) (s : AppFull.VideoSource) : Prop :=
  AppFull.type s = AppFull.mp4 \/
  (Player.isSupported env = false /\ truthy (Player.canPlayType env) = true).

(** Streaming clients are numbered in the order of their creation. *)
Definition FreshIds (st : Player.State) : Prop :=
  forall h, In h (Player.live st) -> Player.hlsId h < Player.nextId st.

(** An entry whose source list is empty. *)
Definition noSourceItem : AppFull.VideoItem :=
  {| AppFull.id := "my-003";
     AppFull.title := "Lost Recording";
     AppFull.description := None;
     AppFull.date := None;
     AppFull.duration := None;
     AppFull.tags := None;
     AppFull.thumbnail := None;
     AppFull.sources := [] |}.

(** Case analysis along the branches of the effect of [VideoPlayer]. *)
Ltac effect_cases env st :=
  unfold Player.effect;
  destruct (Player.refCurrent env) eqn:?; simpl;
  [ destruct (Player.active st) as [?a|] eqn:?; simpl;
    [ destruct (AppFull.type a) eqn:?; simpl;
      [ | destruct (Player.isSupported env) eqn:?; simpl;
          [ | destruct (truthy (Player.canPlayType env)) eqn:?; simpl ] ]
    | ]
  | ].

(* ------------------------------------------------------------------ *)
(** * Strings: append, prefix, substring *)
(* ------------------------------------------------------------------ *)

Lemma append_nil_r (s : string) : s ++ "" = s.
Proof. induction s as [|c s IH]; simpl; [reflexivity | now rewrite IH]. Qed.

Lemma append_assoc (a b c : string) : (a ++ b) ++ c = a ++ b ++ c.
Proof. induction a as [|x a IH]; simpl; [reflexivity | now rewrite IH]. Qed.

Lemma append_eq_nil (a b : string) : a ++ b = "" -> a = "" /\ b = "".
Proof. destruct a; simpl; [auto | discriminate]. Qed.

Lemma prefix_spec (a b : string) :
  String.prefix a b = true <-> exists post, b = a ++ post.
Proof.
  revert b; induction a as [|c a IH]; intros b.
  - destruct b; simpl; split; eauto.
  - destruct b as [|d b]; simpl.
    + split; [discriminate | intros [post H]; discriminate].
    + destruct (ascii_dec c d) as [->|Hne].
      * rewrite IH. split; intros [post H]; exists post.
        -- now rewrite H.
        -- now injection H.
      * split; [discriminate | intros [post H]; injection H; congruence].
Qed.

Lemma includes_spec (s sub : string) :
  includes s sub = true <-> Substring sub s.
Proof.
  unfold Substring. induction s as [|c s IH]; cbn [includes].
  - rewrite orb_false_r, prefix_spec. split.
    + intros [post H]. exists "", post. exact H.
    + intros [pre [post H]]. symmetry in H.
      apply append_eq_nil in H as [-> H]. simpl in H. now exists post.
  - rewrite orb_true_iff, prefix_spec, IH. split.
    + intros [[post H] | [pre [post H]]].
      * exists "", post. exact H.
      * exists (String c pre), post. simpl. now rewrite H.
    + intros [pre [post H]]. destruct pre as [|c' pre]; simpl in H.
      * left. now exists post.
      * right. injection H as _ H. now exists pre, post.
Qed.

Lemma Substring_nil_l (s : string) : Substring "" s.
Proof. exists "", s. reflexivity. Qed.

Lemma Substring_nil_r (sub : string) : Substring sub "" -> sub = "".
Proof.
  intros [pre [post H]]. symmetry in H.
  apply append_eq_nil in H as [_ H]. now apply append_eq_nil in H.
Qed.

Lemma truthy_true_iff (s : string) : truthy s = true <-> s <> "".
Proof. destruct s; simpl; split; congruence. Qed.

Lemma truthy_false_iff (s : string) : truthy s = false <-> s = "".
Proof. destruct s; simpl; split; congruence. Qed.

(* ------------------------------------------------------------------ *)
(** * Strings: trimming and case folding *)
(* ------------------------------------------------------------------ *)

Lemma trimStart_white (w s : string) :
  allWhite w = true -> trimStart (w ++ s) = trimStart s.
Proof.
  induction w as [|c w IH]; simpl; [reflexivity|].
  intros H. apply andb_true_iff in H as [Hc Hw]. rewrite Hc. auto.
Qed.

Lemma trimEnd_all_white (w : string) : allWhite w = true -> trimEnd w = "".
Proof.
  induction w as [|c w IH]; simpl; [reflexivity|].
  intros H. apply andb_true_iff in H as [Hc Hw]. now rewrite IH, Hc.
Qed.

Lemma trimEnd_white (s w : string) :
  allWhite w = true -> trimEnd (s ++ w) = trimEnd s.
Proof.
  intros Hw. induction s as [|c s IH]; simpl.
  - now apply trimEnd_all_white.
  - now rewrite IH.
Qed.

Lemma trimStart_all_white (w : string) : allWhite w = true -> trimStart w = "".
Proof.
  intros H. rewrite <- (append_nil_r w). now rewrite trimStart_white.
Qed.

Lemma trim_trimStart_white (s w : string) :
  allWhite w = true -> trimEnd (trimStart (s ++ w)) = trimEnd (trimStart s).
Proof.
  intros Hw. induction s as [|c s IH]; simpl.
  - now rewrite trimStart_all_white.
  - destruct (isWhiteSpace c); [exact IH|].
    change (String c (s ++ w)) with (String c s ++ w).
    now apply trimEnd_white.
Qed.

(** Surrounding white space does not change the trimmed string. *)
Lemma trim_surrounded (w1 s w2 : string) :
  allWhite w1 = true -> allWhite w2 = true -> trim (w1 ++ s ++ w2) = trim s.
Proof.
  intros H1 H2. unfold trim.
  rewrite trimStart_white by assumption. now apply trim_trimStart_white.
Qed.

Lemma isWhiteSpace_lowerChar (c : ascii) :
  isWhiteSpace (lowerChar c) = isWhiteSpace c.
Proof. destruct c as [[] [] [] [] [] [] [] []]; vm_compute; reflexivity. Qed.

Lemma toLowerCase_trimStart (s : string) :
  toLowerCase (trimStart s) = trimStart (toLowerCase s).
Proof.
  induction s as [|c s IH]; simpl; [reflexivity|].
  rewrite isWhiteSpace_lowerChar. destruct (isWhiteSpace c); [exact IH | reflexivity].
Qed.

Lemma toLowerCase_trimEnd (s : string) :
  toLowerCase (trimEnd s) = trimEnd (toLowerCase s).
Proof.
  induction s as [|c s IH]; simpl; [reflexivity|].
  rewrite <- IH, isWhiteSpace_lowerChar.
  destruct (trimEnd s); simpl; [destruct (isWhiteSpace c)|]; reflexivity.
Qed.

Lemma toLowerCase_trim (s : string) : toLowerCase (trim s) = trim (toLowerCase s).
Proof. unfold trim. now rewrite toLowerCase_trimEnd, toLowerCase_trimStart. Qed.

Lemma toLowerCase_nil_iff (s : string) : toLowerCase s = "" <-> s = "".
Proof. destruct s; simpl; split; congruence. Qed.

(* ------------------------------------------------------------------ *)
(** * The filter of the single-file application *)
(* ------------------------------------------------------------------ *)

Lemma existsb_filterBoolean (f : string -> bool) (xs : list (option string)) :
  existsb f (filterBoolean xs) = true <->
  exists s, In (Some s) xs /\ truthy s = true /\ f s = true.
Proof.
  induction xs as [|[x|] xs IH]; simpl.
  - split; [discriminate | intros [s [[] _]]].
  - destruct (truthy x) eqn:Hx; simpl; rewrite ?orb_true_iff, IH; split.
    + intros [H | [s [Hin H]]]; [exists x | exists s]; tauto.
    + intros [s [[Heq | Hin] [Ht Hf]]].
      * injection Heq as ->. now left.
      * right. now exists s.
    + intros [s [Hin H]]. exists s. tauto.
    + intros [s [[Heq | Hin] [Ht Hf]]].
      * injection Heq as ->. congruence.
      * now exists s.
  - rewrite IH. split; intros [s [Hin H]]; exists s.
    + tauto.
    + destruct Hin as [Heq | Hin]; [discriminate | tauto].
Qed.

(** A non-empty query found in a folded text makes that text truthy. *)
Lemma includes_truthy (txt query : string) :
  query <> "" -> includes (toLowerCase txt) query = true -> truthy txt = true.
Proof.
  intros Hq H. apply truthy_true_iff. intros ->.
  apply includes_spec, Substring_nil_r in H. contradiction.
Qed.

Lemma matchesSearch_spec (query : string) (v : AppFull.VideoItem) :
  query <> "" ->
  AppFull.matchesSearch query v = true <-> MatchesText query v.
Proof.
  intros Hq. unfold AppFull.matchesSearch, AppFull.searchTexts.
  rewrite existsb_filterBoolean.
  unfold MatchesText, InTitle, InDescription, InJoinedTags. split.
  - intros [s [Hin [_ Hs]]]. apply includes_spec in Hs.
    destruct Hin as [H | [H | [H | []]]].
    + injection H as <-. now left.
    + right; left. now exists s.
    + right; right. destruct (AppFull.tags v) as [ts|]; [|discriminate].
      injection H as <-. now exists ts.
  - intros [H | [[d [Hd H]] | [ts [Hts H]]]]; apply includes_spec in H.
    + exists (AppFull.title v). simpl.
      split; [tauto | eauto using includes_truthy].
    + exists d. rewrite Hd. simpl.
      split; [tauto | eauto using includes_truthy].
    + exists (join " " ts). rewrite Hts. simpl.
      split; [tauto | eauto using includes_truthy].
Qed.

Lemma MatchesText_nil (v : AppFull.VideoItem) : MatchesText "" v.
Proof. left. apply Substring_nil_l. Qed.

Lemma MatchesText_dec (query : string) (v : AppFull.VideoItem) :
  MatchesText query v \/ ~ MatchesText query v.
Proof.
  destruct query as [|c query]; [left; apply MatchesText_nil|].
  destruct (AppFull.matchesSearch (String c query) v) eqn:H.
  - left. now apply matchesSearch_spec.
  - right. intros Hm. apply matchesSearch_spec in Hm; congruence.
Qed.

Lemma tagsInclude_spec (tags : option (list string)) (t : string) :
  tagsInclude tags t = true <-> exists ts, tags = Some ts /\ In t ts.
Proof.
  destruct tags as [ts|]; simpl.
  - rewrite existsb_exists. split.
    + intros [x [Hin Hx]]. apply String.eqb_eq in Hx as <-. now exists ts.
    + intros [ts' [Heq Hin]]. injection Heq as <-. exists t.
      split; [assumption | apply String.eqb_refl].
  - split; [discriminate | intros [ts [H _]]; discriminate].
Qed.

(** Membership in the result of the single-file filter. *)
Lemma full_filter_In (all : list AppFull.VideoItem) (q : string)
      (activeTag : option string) (v : AppFull.VideoItem) :
  In v (AppFull.useFilteredVideos all q activeTag) <->
  In v all /\ MatchesText (normalize q) v /\ PassesTag activeTag v.
Proof.
  unfold AppFull.useFilteredVideos. fold (normalize q).
  assert (Hs : In v (if negb (truthy (normalize q)) then all
                     else filter (AppFull.matchesSearch (normalize q)) all) <->
               In v all /\ MatchesText (normalize q) v).
  { destruct (truthy (normalize q)) eqn:Hq; simpl.
    - apply truthy_true_iff in Hq. rewrite filter_In.
      now rewrite matchesSearch_spec.
    - apply truthy_false_iff in Hq. rewrite Hq.
      split; [intros H; split; [exact H | apply MatchesText_nil] | tauto]. }
  destruct activeTag as [t|]; simpl.
  - destruct (truthy t) eqn:Ht; simpl.
    + apply truthy_true_iff in Ht. rewrite filter_In, Hs, tagsInclude_spec.
      unfold HasTag. tauto.
    + apply truthy_false_iff in Ht. rewrite Hs. tauto.
  - rewrite Hs. tauto.
Qed.

(** The result depends on the query through its normal form only. *)
Lemma full_filter_normalize (all : list AppFull.VideoItem) (q1 q2 : string)
      (activeTag : option string) :
  normalize q1 = normalize q2 ->
  AppFull.useFilteredVideos all q1 activeTag =
  AppFull.useFilteredVideos all q2 activeTag.
Proof.
  unfold AppFull.useFilteredVideos, normalize. now intros ->.
Qed.

(** Surrounding white space is ignored by the single-file filter. *)
Theorem full_filter_ignores_surrounding_space
    (all : list AppFull.VideoItem) (w1 q w2 : string) (activeTag : option string) :
  allWhite w1 = true -> allWhite w2 = true ->
  AppFull.useFilteredVideos all (w1 ++ q ++ w2) activeTag =
  AppFull.useFilteredVideos all q activeTag.
Proof.
  intros H1 H2. apply full_filter_normalize. unfold normalize.
  now rewrite trim_surrounded.
Qed.

(** Letter case of the query is ignored by the single-file filter. *)
Theorem full_filter_ignores_case
    (all : list AppFull.VideoItem) (q1 q2 : string) (activeTag : option string) :
  toLowerCase q1 = toLowerCase q2 ->
  AppFull.useFilteredVideos all q1 activeTag =
  AppFull.useFilteredVideos all q2 activeTag.
Proof.
  intros H. apply full_filter_normalize. unfold normalize.
  now rewrite !toLowerCase_trim, H.
Qed.

(* ------------------------------------------------------------------ *)
(** * The filter of the hook *)
(* ------------------------------------------------------------------ *)

(** Membership in the result of the hook. *)
Lemma routed_filter_In (videos : list AppRouted.VideoItem) (query : string)
      (activeTag : option string) (v : AppRouted.VideoItem) :
  In v (AppRouted.useFilteredVideos videos query activeTag) <->
  In v videos /\ PassesTextR query v /\ PassesTagR activeTag v.
Proof.
  unfold AppRouted.useFilteredVideos, PassesTextR.
  assert (Hs : In v (if truthy (trim query)
                     then filter (fun v0 => includes (toLowerCase (AppRouted.title v0))
                                                     (toLowerCase query)) videos
                     else videos) <->
               In v videos /\
               (trim query <> "" ->
                Substring (toLowerCase query) (toLowerCase (AppRouted.title v)))).
  { destruct (truthy (trim query)) eqn:Hq.
    - apply truthy_true_iff in Hq. rewrite filter_In, includes_spec. tauto.
    - apply truthy_false_iff in Hq. tauto. }
  destruct activeTag as [t|]; simpl.
  - destruct (truthy t) eqn:Ht.
    + apply truthy_true_iff in Ht. rewrite filter_In, Hs, tagsInclude_spec.
      unfold HasTagR. tauto.
    + apply truthy_false_iff in Ht. rewrite Hs. tauto.
  - rewrite Hs. tauto.
Qed.

(** Letter case of the query is ignored by the hook as well. *)
Theorem routed_filter_ignores_case
    (videos : list AppRouted.VideoItem) (q1 q2 : string) (activeTag : option string) :
  toLowerCase q1 = toLowerCase q2 ->
  AppRouted.useFilteredVideos videos q1 activeTag =
  AppRouted.useFilteredVideos videos q2 activeTag.
Proof.
  intros H. unfold AppRouted.useFilteredVideos. rewrite H.
  replace (truthy (trim q1)) with (truthy (trim q2)); [reflexivity|].
  assert (E : toLowerCase (trim q1) = toLowerCase (trim q2))
    by now rewrite !toLowerCase_trim, H.
  destruct (trim q1), (trim q2); simpl in *; congruence.
Qed.

(* ------------------------------------------------------------------ *)
(** * Catalog filter: the claims *)
(* ------------------------------------------------------------------ *)

(** C1, as amended.  For every catalog, every query [q] (in particular
    every non-empty one) and any tag selection, an item returned by the
    single-file filter contains the normalized query in its case-folded
    title, description or joined tags, and passes the tag stage; an item of
    the catalog that is left out matches none of the three fields or fails
    the tag stage, and with no tag selected it matches none of them. *)
Theorem C1_filter_returns_matches_modulo_tag
    (all : list AppFull.VideoItem) (q : string) (activeTag : option string)
    (v : AppFull.VideoItem) :
  (In v (AppFull.useFilteredVideos all q activeTag) ->
   MatchesText (normalize q) v /\ PassesTag activeTag v) /\
  (In v all -> ~ In v (AppFull.useFilteredVideos all q activeTag) ->
   ~ MatchesText (normalize q) v \/ ~ PassesTag activeTag v) /\
  (In v all -> ~ In v (AppFull.useFilteredVideos all q None) ->
   ~ MatchesText (normalize q) v).
Proof.
  repeat split.
  - now apply full_filter_In in H.
  - now apply full_filter_In in H.
  - intros Hin Hout. rewrite full_filter_In in Hout.
    destruct (MatchesText_dec (normalize q) v) as [Hm | Hm]; [right | now left].
    intros Ht. now apply Hout.
  - intros Hin Hout Hm. apply Hout, full_filter_In. simpl. tauto.
Qed.

(** C1, witness: the scenario catalog, query [" Video 1 "], tag ["funny"]. *)
Lemma C1_filter_returns_matches_modulo_tag_witness :
  MatchesText (normalize " Video 1 ") scenarioV1 /\
  PassesTag (Some "funny") scenarioV1.
Proof.
  apply (proj1 (C1_filter_returns_matches_modulo_tag
                  scenario " Video 1 " (Some "funny") scenarioV1)).
  left. reflexivity.
Defined.

(** C1, counterexample to the claim as stated: with the tag ["music"]
    selected, the first item of the scenario is left out of the result for
    the query ["sample"] although its title contains the query. *)
Lemma C1_counterexample :
  In scenarioV1 scenario /\
  ~ In scenarioV1 (AppFull.useFilteredVideos scenario "sample" (Some "music")) /\
  InTitle (normalize "sample") scenarioV1.
Proof.
  split; [left; reflexivity|]. split.
  - vm_compute. intros [H | []]. discriminate H.
  - exists "", " video 1". reflexivity.
Qed.

(** C2: the hook tests the trimmed query but matches with the untrimmed
    one.  On its own catalog the query [" sample "] returns nothing, the
    query ["sample"] returns both items. *)
Theorem C2_hook_matches_with_untrimmed_query :
  AppRouted.useFilteredVideos AppRouted.VIDEOS " sample " None = [] /\
  AppRouted.useFilteredVideos AppRouted.VIDEOS "sample" None = AppRouted.VIDEOS.
Proof. split; reflexivity. Qed.

(** C3, as amended.  For every non-empty tag [t]: the filter with an empty
    query returns exactly the items of the catalog that carry [t], a subset
    of what it returns with no tag; and with a query, a returned item passes
    the text stage and carries [t].  Both filters. *)
Theorem C3_tag_stage_is_a_conjunct (t : string) :
  t <> "" ->
  (forall all v,
      In v (AppFull.useFilteredVideos all "" (Some t)) <-> In v all /\ HasTag t v) /\
  (forall all,
      incl (AppFull.useFilteredVideos all "" (Some t))
           (AppFull.useFilteredVideos all "" None)) /\
  (forall all q v,
      In v (AppFull.useFilteredVideos all q (Some t)) ->
      MatchesText (normalize q) v /\ HasTag t v) /\
  (forall videos v,
      In v (AppRouted.useFilteredVideos videos "" (Some t)) <->
      In v videos /\ HasTagR t v) /\
  (forall videos,
      incl (AppRouted.useFilteredVideos videos "" (Some t))
           (AppRouted.useFilteredVideos videos "" None)) /\
  (forall videos q v,
      In v (AppRouted.useFilteredVideos videos q (Some t)) ->
      PassesTextR q v /\ HasTagR t v).
Proof.
  intros Ht. repeat apply conj.
  - intros all v. rewrite full_filter_In. simpl.
    pose proof (MatchesText_nil v). tauto.
  - intros all v. rewrite !full_filter_In. simpl. tauto.
  - intros all q v. rewrite full_filter_In. simpl. tauto.
  - intros videos v. rewrite routed_filter_In. unfold PassesTextR. simpl. tauto.
  - intros videos v. rewrite !routed_filter_In. simpl. tauto.
  - intros videos q v. rewrite routed_filter_In. simpl. tauto.
Qed.

(** C3, witness: the tag ["music"]. *)
Lemma C3_tag_stage_is_a_conjunct_witness :
  In scenarioV2 (AppFull.useFilteredVideos scenario "" (Some "music")) <->
  In scenarioV2 scenario /\ HasTag "music" scenarioV2.
Proof.
  assert (H : "music" <> "") by discriminate.
  apply (proj1 (C3_tag_stage_is_a_conjunct "music" H) scenario scenarioV2).
Defined.

(** C3, counterexample to the claim as stated: the empty string is a tag of
    the first item, yet selecting it returns the second item too, which does
    not carry it. *)
Lemma C3_counterexample :
  HasTag "" emptyTagItem /\
  In plainTagItem
     (AppFull.useFilteredVideos [emptyTagItem; plainTagItem] "" (Some "")) /\
  ~ HasTag "" plainTagItem.
Proof.
  repeat split.
  - exists [""]. split; [reflexivity | now left].
  - right. left. reflexivity.
  - intros [ts [H Hin]]. injection H as <-.
    destruct Hin as [H | []]. discriminate H.
Qed.

(** C4: with an empty query and no tag, both filters return the catalog
    unchanged. *)
Theorem C4_filter_identity :
  (forall all : list AppFull.VideoItem,
      AppFull.useFilteredVideos all "" None = all) /\
  (forall videos : list AppRouted.VideoItem,
      AppRouted.useFilteredVideos videos "" None = videos).
Proof. split; intros; reflexivity. Qed.

(** C10: when a tag filter is active (the selection is truthy), both filters
    keep an item only if its tag list is present and has an element equal
    to the selection, and keep every such item of the catalog when the
    query is empty; an item without tag list is never kept.  The selection
    is compared as it is: ["Music"] and [" music "] select nothing where
    ["music"] selects the second item. *)
Theorem C10_tag_stage_exact_equality :
  (forall t, truthy t = true ->
     (forall all q v,
         In v (AppFull.useFilteredVideos all q (Some t)) ->
         exists ts, AppFull.tags v = Some ts /\ In t ts) /\
     (forall all v ts,
         In v all -> AppFull.tags v = Some ts -> In t ts ->
         In v (AppFull.useFilteredVideos all "" (Some t))) /\
     (forall all q v,
         AppFull.tags v = None ->
         ~ In v (AppFull.useFilteredVideos all q (Some t))) /\
     (forall videos q v,
         In v (AppRouted.useFilteredVideos videos q (Some t)) ->
         exists ts, AppRouted.tags v = Some ts /\ In t ts) /\
     (forall videos v ts,
         In v videos -> AppRouted.tags v = Some ts -> In t ts ->
         In v (AppRouted.useFilteredVideos videos "" (Some t))) /\
     (forall videos q v,
         AppRouted.tags v = None ->
         ~ In v (AppRouted.useFilteredVideos videos q (Some t)))) /\
  AppFull.useFilteredVideos scenario "" (Some "music") = [scenarioV2] /\
  AppFull.useFilteredVideos scenario "" (Some "Music") = [] /\
  AppFull.useFilteredVideos scenario "" (Some " music ") = [] /\
  AppRouted.useFilteredVideos AppRouted.VIDEOS "" (Some "music")
    = [AppRouted.videoV2] /\
  AppRouted.useFilteredVideos AppRouted.VIDEOS "" (Some "Music") = [] /\
  AppRouted.useFilteredVideos AppRouted.VIDEOS "" (Some " music ") = [].
Proof.
  split; [|repeat split].
  intros t Ht. apply truthy_true_iff in Ht. repeat apply conj.
  - intros all q v H. apply full_filter_In in H. simpl in H.
    destruct H as [_ [_ H]]. exact (H Ht).
  - intros all v ts Hin Hts Ht'. apply full_filter_In. simpl.
    split; [assumption|]. split; [apply MatchesText_nil|].
    intros _. now exists ts.
  - intros all q v Hnone H. apply full_filter_In in H. simpl in H.
    destruct H as [_ [_ H]]. destruct (H Ht) as [ts [Hts _]]. congruence.
  - intros videos q v H. apply routed_filter_In in H. simpl in H.
    destruct H as [_ [_ H]]. exact (H Ht).
  - intros videos v ts Hin Hts Ht'. apply routed_filter_In. simpl.
    split; [assumption|]. split; [intros H; now elim H|].
    intros _. now exists ts.
  - intros videos q v Hnone H. apply routed_filter_In in H. simpl in H.
    destruct H as [_ [_ H]]. destruct (H Ht) as [ts [Hts _]]. congruence.
Qed.

(** C10, witness: the selection ["music"] on the scenario catalog. *)
Lemma C10_tag_stage_exact_equality_witness :
  exists ts, AppFull.tags scenarioV2 = Some ts /\ In "music" ts.
Proof.
  destruct (proj1 C10_tag_stage_exact_equality "music" eq_refl) as [H _].
  apply (H scenario "").
  vm_compute. left. reflexivity.
Defined.

(* ------------------------------------------------------------------ *)
(** * Code-unit order and sorting *)
(* ------------------------------------------------------------------ *)

Lemma strLt_trans (a b c : string) : strLt a b -> strLt b c -> strLt a c.
Proof.
  unfold strLt. intros H1 H2.
  apply OrderedTypeEx.String_as_OT.cmp_lt.
  apply OrderedTypeEx.String_as_OT.cmp_lt in H1, H2.
  eapply OrderedTypeEx.String_as_OT.lt_trans; eassumption.
Qed.

Lemma strLt_irrefl (a : string) : ~ strLt a a.
Proof.
  unfold strLt. intros H. pose proof (String.compare_antisym a a) as E.
  rewrite H in E. discriminate E.
Qed.

Lemma leb_true_cases (a b : string) : String.leb a b = true -> a = b \/ strLt a b.
Proof.
  unfold String.leb, strLt. destruct (String.compare a b) eqn:E; intros H.
  - left. now apply String.compare_eq_iff.
  - now right.
  - discriminate H.
Qed.

Lemma leb_false_lt (a b : string) : String.leb a b = false -> strLt b a.
Proof.
  unfold String.leb, strLt. rewrite (String.compare_antisym b a).
  destruct (String.compare a b); simpl; congruence.
Qed.

Lemma insertSorted_In (t : string) (xs : list string) (x : string) :
  In x (insertSorted t xs) <-> x = t \/ In x xs.
Proof.
  induction xs as [|y xs IH]; simpl.
  - intuition congruence.
  - destruct (String.leb t y); simpl; rewrite ?IH; intuition congruence.
Qed.

Lemma sort_In (xs : list string) (x : string) : In x (sort xs) <-> In x xs.
Proof.
  induction xs as [|y xs IH]; simpl; [tauto|].
  rewrite insertSorted_In, IH. intuition congruence.
Qed.

Lemma insertSorted_sorted (t : string) (xs : list string) :
  StronglySorted strLt xs -> ~ In t xs -> StronglySorted strLt (insertSorted t xs).
Proof.
  induction xs as [|y xs IH]; simpl; intros Hs Hnot.
  - constructor; constructor.
  - inversion Hs as [|? ? Hs' Hall]; subst.
    destruct (String.leb t y) eqn:E.
    + apply leb_true_cases in E as [-> | Hlt]; [tauto|].
      constructor; [assumption|]. constructor; [assumption|].
      eapply Forall_impl; [|exact Hall]. intros z. now apply strLt_trans.
    + apply leb_false_lt in E. constructor; [apply IH; tauto|].
      apply Forall_forall. intros z Hz. apply insertSorted_In in Hz as [-> | Hz].
      * assumption.
      * rewrite Forall_forall in Hall. now apply Hall.
Qed.

Lemma sort_sorted (xs : list string) : NoDup xs -> StronglySorted strLt (sort xs).
Proof.
  induction 1 as [|x xs Hnot Hnd IH]; simpl; [constructor|].
  apply insertSorted_sorted; [assumption|]. now rewrite sort_In.
Qed.

(** Two strictly sorted lists with the same elements are equal. *)
Lemma sorted_same_elements (l1 l2 : list string) :
  StronglySorted strLt l1 -> StronglySorted strLt l2 ->
  (forall x, In x l1 <-> In x l2) -> l1 = l2.
Proof.
  intros H1. revert l2. induction H1 as [|a l1 Hs1 IH Ha]; intros l2 H2 Hin.
  - destruct l2 as [|b l2]; [reflexivity|]. now destruct (proj2 (Hin b) (or_introl eq_refl)).
  - destruct H2 as [|b l2 Hs2 Hb].
    + now destruct (proj1 (Hin a) (or_introl eq_refl)).
    + rewrite Forall_forall in Ha, Hb.
      assert (a = b) as <-.
      { destruct (proj1 (Hin a) (or_introl eq_refl)) as [E | Hab]; [now symmetry|].
        destruct (proj2 (Hin b) (or_introl eq_refl)) as [E | Hba]; [assumption|].
        exfalso. apply (strLt_irrefl a). eapply strLt_trans; eauto. }
      f_equal. apply IH; [assumption|]. intros x. split; intros Hx.
      * destruct (proj1 (Hin x) (or_intror Hx)) as [<- | Hx']; [|assumption].
        exfalso. apply (strLt_irrefl a); auto.
      * destruct (proj2 (Hin x) (or_intror Hx)) as [<- | Hx']; [|assumption].
        exfalso. apply (strLt_irrefl a); auto.
Qed.

Lemma sorted_NoDup (l : list string) : StronglySorted strLt l -> NoDup l.
Proof.
  induction 1 as [|a l Hs IH Ha]; constructor; [|assumption].
  intros Hin. rewrite Forall_forall in Ha. exact (strLt_irrefl a (Ha a Hin)).
Qed.

(* ------------------------------------------------------------------ *)
(** * The [Set] of tags *)
(* ------------------------------------------------------------------ *)

Lemma existsb_eqb_In (t : string) (set : list string) :
  existsb (String.eqb t) set = true <-> In t set.
Proof.
  rewrite existsb_exists. split.
  - intros [x [Hin Hx]]. now apply String.eqb_eq in Hx as <-.
  - intros Hin. exists t. split; [assumption | apply String.eqb_refl].
Qed.

Lemma setAdd_In (set : list string) (t x : string) :
  In x (setAdd set t) <-> In x set \/ x = t.
Proof.
  unfold setAdd. destruct (existsb (String.eqb t) set) eqn:E.
  - apply existsb_eqb_In in E. intuition congruence.
  - rewrite in_app_iff. simpl. intuition congruence.
Qed.

Lemma setAdd_NoDup (set : list string) (t : string) :
  NoDup set -> NoDup (setAdd set t).
Proof.
  intros Hnd. unfold setAdd. destruct (existsb (String.eqb t) set) eqn:E; [assumption|].
  assert (Hnot : ~ In t set).
  { intros Hin. apply existsb_eqb_In in Hin. congruence. }
  apply NoDup_app; [assumption | repeat constructor; intros [] |].
  intros a Ha [<- | []]. contradiction.
Qed.

Lemma fold_setAdd_In (ts set : list string) (x : string) :
  In x (fold_left setAdd ts set) <-> In x set \/ In x ts.
Proof.
  revert set. induction ts as [|t ts IH]; intros set; simpl; [tauto|].
  rewrite IH, setAdd_In. intuition congruence.
Qed.

Lemma fold_setAdd_NoDup (ts set : list string) :
  NoDup set -> NoDup (fold_left setAdd ts set).
Proof.
  revert set. induction ts as [|t ts IH]; intros set H; simpl; [assumption|].
  apply IH. now apply setAdd_NoDup.
Qed.

(* ------------------------------------------------------------------ *)
(** * Tag vocabulary *)
(* ------------------------------------------------------------------ *)

Lemma collect_In (videos : list AppFull.VideoItem) (set : list string) (x : string) :
  In x (fold_left
          (fun set v =>
             match AppFull.tags v with
             | Some ts => fold_left setAdd ts set
             | None => set
             end) videos set) <->
  In x set \/ exists v, In v videos /\ HasTag x v.
Proof.
  revert set. induction videos as [|v videos IH]; intros set; simpl.
  - split; [auto | intros [H | [v [[] _]]]; exact H].
  - rewrite IH. unfold HasTag. destruct (AppFull.tags v) as [ts|] eqn:E.
    + rewrite fold_setAdd_In. split.
      * intros [[H | H] | [w [Hw Ht]]]; eauto 7.
      * intros [H | [w [[<- | Hw] [ts' [E' Ht]]]]]; eauto 7.
        rewrite E in E'. injection E' as <-. auto.
    + split.
      * intros [H | [w [Hw Ht]]]; eauto 7.
      * intros [H | [w [[<- | Hw] [ts' [E' Ht]]]]]; eauto 7. congruence.
Qed.

Lemma collect_NoDup (videos : list AppFull.VideoItem) (set : list string) :
  NoDup set ->
  NoDup (fold_left
           (fun set v =>
              match AppFull.tags v with
              | Some ts => fold_left setAdd ts set
              | None => set
              end) videos set).
Proof.
  revert set. induction videos as [|v videos IH]; intros set H; simpl; [assumption|].
  apply IH. destruct (AppFull.tags v); [now apply fold_setAdd_NoDup | assumption].
Qed.

(** The vocabulary of [UniqueTags] holds exactly the tags of the catalog. *)
Lemma uniqueTags_In (videos : list AppFull.VideoItem) (t : string) :
  In t (AppFull.uniqueTags videos) <-> exists v, In v videos /\ HasTag t v.
Proof.
  unfold AppFull.uniqueTags, AppFull.collectTags.
  rewrite sort_In, collect_In. simpl. tauto.
Qed.

(** It is strictly increasing in code-unit order. *)
Lemma uniqueTags_sorted (videos : list AppFull.VideoItem) :
  StronglySorted strLt (AppFull.uniqueTags videos).
Proof.
  apply sort_sorted, collect_NoDup. constructor.
Qed.

(** [UniqueTags]: the vocabulary is the union of the tag lists, without
    duplicates, in increasing order, and two catalogs with the same tags,
    in whatever order, have the same vocabulary. *)
Theorem uniqueTags_is_sorted_union :
  (forall videos t,
      In t (AppFull.uniqueTags videos) <-> exists v, In v videos /\ HasTag t v) /\
  (forall videos, NoDup (AppFull.uniqueTags videos)) /\
  (forall videos, StronglySorted strLt (AppFull.uniqueTags videos)) /\
  (forall videos1 videos2,
      (forall t, (exists v, In v videos1 /\ HasTag t v) <->
                 (exists v, In v videos2 /\ HasTag t v)) ->
      AppFull.uniqueTags videos1 = AppFull.uniqueTags videos2) /\
  (forall videos1 videos2,
      Permutation videos1 videos2 ->
      AppFull.uniqueTags videos1 = AppFull.uniqueTags videos2).
Proof.
  assert (Hsame : forall videos1 videos2,
             (forall t, (exists v, In v videos1 /\ HasTag t v) <->
                        (exists v, In v videos2 /\ HasTag t v)) ->
             AppFull.uniqueTags videos1 = AppFull.uniqueTags videos2).
  { intros videos1 videos2 H.
    apply sorted_same_elements; try apply uniqueTags_sorted.
    intros x. now rewrite !uniqueTags_In. }
  repeat apply conj.
  - apply uniqueTags_In.
  - intros videos. apply sorted_NoDup, uniqueTags_sorted.
  - apply uniqueTags_sorted.
  - exact Hsame.
  - intros videos1 videos2 Hp. apply Hsame. intros t.
    split; intros [v [Hin Ht]]; exists v; split; try assumption.
    + eapply Permutation_in; eassumption.
    + eapply Permutation_in; [apply Permutation_sym|]; eassumption.
Qed.

(** The list of [ArchiveHome] holds the same union without duplicates;
    its order is the order of first occurrence. *)
Theorem archiveHomeTags_is_union (videos : list AppRouted.VideoItem) :
  (forall t, In t (AppRouted.archiveHomeTags videos) <->
             exists v, In v videos /\ HasTagR t v) /\
  NoDup (AppRouted.archiveHomeTags videos).
Proof.
  unfold AppRouted.archiveHomeTags. split.
  - intros t. rewrite fold_setAdd_In, in_flat_map. unfold HasTagR. simpl. split.
    + intros [[] | [v [Hin Ht]]]. exists v. split; [assumption|].
      destruct (AppRouted.tags v) as [ts|]; [now exists ts | destruct Ht].
    + intros [v [Hin [ts [E Ht]]]]. right. exists v. rewrite E. auto.
  - apply fold_setAdd_NoDup. constructor.
Qed.

(** C5: the tag list computed in [ArchiveHome] is not sorted.  On the
    catalog of the routed application it is funny, short, music, live; the
    vocabulary of [UniqueTags] for the same tags is funny, live, music,
    short. *)
Theorem C5_archiveHome_tags_in_insertion_order :
  AppRouted.archiveHomeTags AppRouted.VIDEOS = ["funny"; "short"; "music"; "live"] /\
  ~ StronglySorted strLt (AppRouted.archiveHomeTags AppRouted.VIDEOS) /\
  AppFull.uniqueTags scenario = ["funny"; "live"; "music"; "short"].
Proof.
  split; [reflexivity|]. split; [|reflexivity].
  intros H. change (AppRouted.archiveHomeTags AppRouted.VIDEOS)
    with ["funny"; "short"; "music"; "live"] in H.
  inversion H as [|? ? H1 _]; subst. inversion H1 as [|? ? _ H2]; subst.
  inversion H2 as [|? ? Hlt _]; subst. discriminate Hlt.
Qed.

(* ------------------------------------------------------------------ *)
(** * Playback session: invariants of the state machine *)
(* ------------------------------------------------------------------ *)

Section PlayerInvariants.
Import Player.

Variable env : Env.
Variable video : AppFull.VideoItem.

(** An invariant of [step] holds after every run that starts in it. *)
Lemma fold_step_invariant (P : State -> Prop) :
  (forall st ev, P st -> P (step env video st ev)) ->
  forall evs st, P st -> P (fold_left (step env video) evs st).
Proof.
  intros Hstep evs. induction evs as [|ev evs IH]; intros st H; simpl; auto.
Qed.

Lemma runCleanup_clean (st : State) :
  Consistent st ->
  live (runCleanup st) = [] /\ elSrc (runCleanup st) = None /\
  cleanup (runCleanup st) = None.
Proof.
  unfold Consistent, runCleanup.
  destruct (cleanup st) as [[h|]|] eqn:E; simpl.
  - intros [[u ->] _]. simpl. now rewrite Nat.eqb_refl.
  - intros [-> _]. auto.
  - rewrite E. tauto.
Qed.

Lemma effect_consistent (st : State) :
  live st = [] -> elSrc st = None ->
  (phase st = Mounted \/ active st = None) ->
  Consistent (effect env st).
Proof.
  intros Hl He Hp. unfold Consistent, effect.
  destruct (refCurrent env); simpl; [|auto].
  destruct (active st) as [a|] eqn:Ea; simpl; [|auto].
  assert (Hm : phase st = Mounted) by (destruct Hp; congruence).
  destruct (AppFull.type a); simpl; [auto|].
  destruct (isSupported env); simpl.
  - rewrite Hl. eauto.
  - destruct (truthy (canPlayType env)); simpl; auto.
Qed.

Lemma step_consistent (st : State) (ev : Event) :
  Consistent st -> Consistent (step env video st ev).
Proof.
  intros H. unfold step. destruct (phase st) eqn:Hp; try assumption.
  destruct ev as [i|h|].
  - destruct (nth_error (AppFull.sources video) i) as [s|]; [|assumption].
    destruct (Nat.eqb i (activeIx st)); [assumption|].
    destruct (runCleanup_clean st H) as [Hl [He _]].
    apply effect_consistent; simpl; try assumption.
    left. unfold runCleanup. now destruct (cleanup st).
  - destruct (existsb _ (live st)); assumption.
  - destruct (runCleanup_clean st H) as [Hl [He Hc]].
    unfold Consistent. simpl. rewrite Hc. auto.
Qed.

Lemma run_consistent (evs : list Event) : Consistent (run env video evs).
Proof.
  unfold run. apply fold_step_invariant; [exact step_consistent|].
  apply effect_consistent; simpl; auto.
Qed.

Lemma consistent_attached (st : State) : Consistent st -> attached st <= 1.
Proof.
  unfold Consistent, attached.
  destruct (cleanup st) as [[h|]|].
  - intros [[u ->] [-> _]]. simpl. lia.
  - intros [-> _]. simpl. destruct (elSrc st); lia.
  - intros [-> ->]. simpl. lia.
Qed.

Lemma effect_active (st : State) :
  active (effect env st) = active st.
Proof.
  unfold effect. destruct (refCurrent env); simpl; [|reflexivity].
  destruct (active st) as [a|]; simpl; [|reflexivity].
  destruct (AppFull.type a); simpl; [reflexivity|].
  destruct (isSupported env); simpl; [reflexivity|].
  destruct (truthy (canPlayType env)); reflexivity.
Qed.

Lemma effect_activeIx (st : State) :
  activeIx (effect env st) = activeIx st.
Proof.
  unfold effect. destruct (refCurrent env); simpl; [|reflexivity].
  destruct (active st) as [a|]; simpl; [|reflexivity].
  destruct (AppFull.type a); simpl; [reflexivity|].
  destruct (isSupported env); simpl; [reflexivity|].
  destruct (truthy (canPlayType env)); reflexivity.
Qed.

Lemma runCleanup_active (st : State) :
  active (runCleanup st) = active st /\ activeIx (runCleanup st) = activeIx st /\
  canPlay (runCleanup st) = canPlay st /\ phase (runCleanup st) = phase st.
Proof. unfold runCleanup. destruct (cleanup st); simpl; auto. Qed.

Lemma step_activeIsSource (st : State) (ev : Event) :
  ActiveIsSource video st -> ActiveIsSource video (step env video st ev).
Proof.
  intros H. unfold step. destruct (phase st); try assumption.
  destruct ev as [i|h|].
  - destruct (nth_error (AppFull.sources video) i) as [s|] eqn:Es; [|assumption].
    destruct (Nat.eqb i (activeIx st)); [assumption|].
    unfold ActiveIsSource. rewrite effect_active, effect_activeIx. simpl.
    split; [now symmetry | discriminate].
  - destruct (existsb _ (live st)); assumption.
  - unfold ActiveIsSource in *. simpl.
    destruct (runCleanup_active st) as [-> [-> _]]. assumption.
Qed.

Lemma run_activeIsSource (evs : list Event) :
  ActiveIsSource video (run env video evs).
Proof.
  unfold run. apply fold_step_invariant; [exact step_activeIsSource|].
  unfold ActiveIsSource, openPlayer. rewrite effect_active, effect_activeIx. simpl.
  split; [reflexivity|]. now destruct (AppFull.sources video).
Qed.

Hypothesis no_client : isSupported env = false.
Hypothesis no_native : truthy (canPlayType env) = false.

Lemma effect_nothingPlayable (st : State) :
  live st = [] -> elSrc st = None ->
  (refCurrent env = false -> canPlay st = false) ->
  NothingPlayable env (effect env st).
Proof.
  intros Hl He Hc. unfold NothingPlayable, effect.
  destruct (refCurrent env) eqn:Hr; simpl.
  - destruct (active st) as [a|] eqn:Ea; simpl.
    + destruct (AppFull.type a) eqn:Et; simpl.
      * repeat split; try assumption; try discriminate; congruence.
      * rewrite no_client, no_native. simpl.
        repeat split; try assumption; discriminate.
    + repeat split; try assumption; discriminate.
  - repeat split; auto.
Qed.

Lemma step_nothingPlayable (st : State) (ev : Event) :
  Consistent st -> NothingPlayable env st ->
  NothingPlayable env (step env video st ev).
Proof.
  intros Hc H. unfold step. destruct (phase st); try assumption.
  destruct (runCleanup_clean st Hc) as [Hl [He _]].
  destruct (runCleanup_active st) as [Ha [_ [Hcp _]]].
  pose proof H as [Hlive [Href Hhls]].
  destruct ev as [i|h|].
  - destruct (nth_error (AppFull.sources video) i) as [s|]; [|exact H].
    destruct (Nat.eqb i (activeIx st)); [exact H|].
    apply effect_nothingPlayable; simpl; try assumption. now rewrite Hcp.
  - rewrite Hlive. simpl. exact H.
  - unfold NothingPlayable. simpl. rewrite Hl, He, Ha, Hcp.
    split; [reflexivity|]. split; [assumption|].
    intros s Hs Ht. split; [|reflexivity]. now apply (Hhls s).
Qed.

Lemma run_nothingPlayable (evs : list Event) :
  NothingPlayable env (run env video evs).
Proof.
  unfold run.
  apply (fold_step_invariant (fun st => Consistent st /\ NothingPlayable env st)).
  - intros st ev [Hc Hn]. split; [now apply step_consistent | now apply step_nothingPlayable].
  - split.
    + apply effect_consistent; simpl; auto.
    + apply effect_nothingPlayable; simpl; auto.
Qed.

End PlayerInvariants.

(* ------------------------------------------------------------------ *)
(** * Playback session: the claims *)
(* ------------------------------------------------------------------ *)

(** C6: when [Hls.isSupported()] is false and [canPlayType] answers the
    empty string, every state of a session whose active source is a
    playlist has [canPlay = false], no source assigned to the element and
    no streaming client. *)
Theorem C6_no_playable_path_is_not_ready
    (env : Player.Env) (video : AppFull.VideoItem) (evs : list Player.Event)
    (s : AppFull.VideoSource) :
  Player.isSupported env = false ->
  Player.canPlayType env = "" ->
  Player.active (Player.run env video evs) = Some s ->
  AppFull.type s = AppFull.hls ->
  Player.canPlay (Player.run env video evs) = false /\
  Player.elSrc (Player.run env video evs) = None /\
  Player.live (Player.run env video evs) = [].
Proof.
  intros Hc Hn Ha Ht.
  assert (Hn' : truthy (Player.canPlayType env) = false) by now rewrite Hn.
  destruct (run_nothingPlayable env video Hc Hn' evs) as [Hl [_ H]].
  destruct (H s Ha Ht). auto.
Qed.

(** C6, witness: the footer entry in a browser without any playlist
    support, after switching to the MP4 and back to the playlist. *)
Lemma C6_no_playable_path_is_not_ready_witness :
  Player.canPlay
    (Player.run bareBrowser talk [Player.SelectSource 1; Player.SelectSource 0])
  = false /\
  Player.elSrc
    (Player.run bareBrowser talk [Player.SelectSource 1; Player.SelectSource 0])
  = None /\
  Player.live
    (Player.run bareBrowser talk [Player.SelectSource 1; Player.SelectSource 0])
  = [].
Proof.
  apply (C6_no_playable_path_is_not_ready bareBrowser talk
           [Player.SelectSource 1; Player.SelectSource 0] hlsSource);
    reflexivity.
Defined.

(** On open, a playlist attached through the streaming client is not
    ready, and the MANIFEST_PARSED signal of that client makes it ready. *)
Theorem open_with_client_waits_for_manifest
    (env : Player.Env) (video : AppFull.VideoItem)
    (s : AppFull.VideoSource) (rest : list AppFull.VideoSource) :
  AppFull.sources video = s :: rest ->
  AppFull.type s = AppFull.hls ->
  Player.isSupported env = true ->
  Player.refCurrent env = true ->
  Player.canPlay (Player.openPlayer env video) = false /\
  Player.canPlay
    (Player.step env video (Player.openPlayer env video) (Player.ManifestParsed 0))
  = true.
Proof.
  intros Hs Ht Hsup Href.
  unfold Player.step, Player.openPlayer, Player.effect, Player.initial.
  rewrite Href, Hs. simpl. rewrite Ht, Hsup. simpl. auto.
Qed.

(** C7: after a switch from a source that was ready to a playlist attached
    through the streaming client, [canPlay] is still true although the new
    client has not signalled MANIFEST_PARSED.  Shown on the footer entry
    (playlist ready, switch to the MP4, switch back) and on the entry with
    the MP4 first (one switch). *)
Theorem C7_ready_is_stale_after_switch :
  (let st := Player.run mseBrowser talkMp4First [Player.SelectSource 1] in
   Player.active st = Some hlsSource /\
   Player.live st =
     [ {| Player.hlsId := 0; Player.loadedSource := AppFull.src hlsSource |} ] /\
   Player.canPlay st = true) /\
  (let st := Player.run mseBrowser talk
               [Player.ManifestParsed 0; Player.SelectSource 1; Player.SelectSource 0] in
   Player.active st = Some hlsSource /\
   Player.live st =
     [ {| Player.hlsId := 1; Player.loadedSource := AppFull.src hlsSource |} ] /\
   Player.canPlay st = true).
Proof. repeat split; reflexivity. Qed.

(** C8: between two events at most one playback resource is attached; a
    change of source first runs the cleanup of the previous effect, which
    leaves nothing attached, and only then the new effect; after a close
    nothing is attached. *)
Theorem C8_one_attachment_at_a_time
    (env : Player.Env) (video : AppFull.VideoItem) (evs : list Player.Event) :
  Player.attached (Player.run env video evs) <= 1 /\
  (forall i s,
      Player.phase (Player.run env video evs) = Player.Mounted ->
      nth_error (AppFull.sources video) i = Some s ->
      i <> Player.activeIx (Player.run env video evs) ->
      Player.attached (Player.runCleanup (Player.run env video evs)) = 0 /\
      Player.step env video (Player.run env video evs) (Player.SelectSource i) =
      Player.effect env
        (Player.setActive i s (Player.runCleanup (Player.run env video evs)))) /\
  Player.attached
    (Player.step env video (Player.run env video evs) Player.Close) = 0.
Proof.
  pose proof (run_consistent env video evs) as Hc.
  set (st := Player.run env video evs) in *.
  destruct (runCleanup_clean st Hc) as [Hl [He Hcl]].
  split; [now apply consistent_attached|]. split.
  - intros i s Hp Hs Hi. split.
    + unfold Player.attached. now rewrite Hl, He.
    + unfold Player.step. rewrite Hp, Hs.
      apply Nat.eqb_neq in Hi. now rewrite Hi.
  - unfold Player.step. destruct (Player.phase st) eqn:Hp.
    + unfold Player.attached. simpl. now rewrite Hl, He.
    + unfold Consistent in Hc. unfold Player.attached.
      destruct (Player.cleanup st) as [[h|]|].
      * destruct Hc as [_ [_ Hm]]. congruence.
      * destruct Hc as [_ Hm]. congruence.
      * destruct Hc as [-> ->]. reflexivity.
    + unfold Consistent in Hc. unfold Player.attached.
      destruct (Player.cleanup st) as [[h|]|].
      * destruct Hc as [_ [_ Hm]]. congruence.
      * destruct Hc as [_ Hm]. congruence.
      * destruct Hc as [-> ->]. reflexivity.
Qed.

(** C8, witness: on the footer entry with its playlist parsed, the switch
    to the MP4 destroys the client before the MP4 is assigned. *)
Lemma C8_one_attachment_at_a_time_witness :
  Player.attached
    (Player.runCleanup (Player.run mseBrowser talk [Player.ManifestParsed 0])) = 0 /\
  Player.step mseBrowser talk (Player.run mseBrowser talk [Player.ManifestParsed 0])
              (Player.SelectSource 1) =
  Player.effect mseBrowser
    (Player.setActive 1 mp4Source
       (Player.runCleanup (Player.run mseBrowser talk [Player.ManifestParsed 0]))).
Proof.
  apply (proj1 (proj2 (C8_one_attachment_at_a_time mseBrowser talk
                         [Player.ManifestParsed 0])) 1 mp4Source).
  - reflexivity.
  - reflexivity.
  - discriminate.
Defined.

(** As long as the player shows the item it was opened on: the session
    starts with the first source of the item and [canPlay = false]; in
    every later state the active source is an element of the item's
    source list (it is undefined only when that list is empty), and
    selecting the i-th source makes it the active one. *)
Theorem one_item_session_keeps_active_source (video : AppFull.VideoItem) :
  Player.active (Player.initial video) = hd_error (AppFull.sources video) /\
  Player.canPlay (Player.initial video) = false /\
  (forall env evs,
      match Player.active (Player.run env video evs) with
      | Some s => In s (AppFull.sources video)
      | None => AppFull.sources video = []
      end) /\
  (forall env evs i s,
      Player.phase (Player.run env video evs) = Player.Mounted ->
      nth_error (AppFull.sources video) i = Some s ->
      Player.active
        (Player.step env video (Player.run env video evs) (Player.SelectSource i))
      = Some s).
Proof.
  split; [simpl; now destruct (AppFull.sources video)|]. split; [reflexivity|]. split.
  - intros env evs. destruct (run_activeIsSource env video evs) as [Hix Hnone].
    destruct (Player.active (Player.run env video evs)) as [s|].
    + eapply nth_error_In. symmetry. exact Hix.
    + now apply Hnone.
  - intros env evs i s Hp Hs.
    destruct (run_activeIsSource env video evs) as [Hix _].
    unfold Player.step. rewrite Hp, Hs.
    destruct (Nat.eqb i (Player.activeIx (Player.run env video evs))) eqn:E.
    + apply Nat.eqb_eq in E. subst i. congruence.
    + now rewrite effect_active.
Qed.

(** Selecting the second source of the footer entry. *)
Lemma one_item_session_keeps_active_source_witness :
  Player.active
    (Player.step mseBrowser talk (Player.run mseBrowser talk []) (Player.SelectSource 1))
  = Some mp4Source.
Proof.
  apply (proj2 (proj2 (proj2 (one_item_session_keeps_active_source talk))) mseBrowser [] 1);
    reflexivity.
Defined.

(** C9: the card of the second item of the scenario is opened while the
    player of the first is open.  The player now shows the second item,
    but its state is the one of the first: the active source is the
    source of the first item, which is not the first source of the
    second nor any of its sources, [canPlay] is true and not false, and
    the element still plays the first item; no button of the selector is
    drawn as selected. *)
Theorem C9_open_player_keeps_sources_of_previous_item :
  Modal.openIx (Modal.run mseBrowser scenario [Modal.OpenCard 0; Modal.OpenCard 1])
  = Some 1 /\
  exists st,
    Modal.session (Modal.run mseBrowser scenario [Modal.OpenCard 0; Modal.OpenCard 1])
    = Some st /\
    Player.phase st = Player.Mounted /\
    Player.active st = hd_error (AppFull.sources scenarioV1) /\
    Player.active st <> hd_error (AppFull.sources scenarioV2) /\
    (forall s, Player.active st = Some s -> ~ In s (AppFull.sources scenarioV2)) /\
    Player.canPlay st = true /\
    Player.elSrc st = Some "https://www.w3schools.com/html/mov_bbb.mp4" /\
    option_map (filter srcHighlighted) (Views.playerSelector scenarioV2 st) = Some [].
Proof.
  split; [reflexivity|]. eexists. split; [reflexivity|].
  repeat split; try reflexivity.
  - discriminate.
  - intros s Hs [H | []]. injection Hs as <-. discriminate H.
Qed.

(* ------------------------------------------------------------------ *)
(** * Catalog filter: further properties *)
(* ------------------------------------------------------------------ *)

Lemma filter_twice {A : Type} (f g : A -> bool) (l : list A) :
  filter f (filter g l) = filter (fun x => g x && f x) l.
Proof.
  induction l as [|x l IH]; simpl; [reflexivity|].
  destruct (g x); simpl; [destruct (f x)|]; now rewrite IH.
Qed.

Lemma filter_all {A : Type} (f : A -> bool) (l : list A) :
  (forall x, f x = true) -> filter f l = l.
Proof.
  intros H. induction l as [|x l IH]; simpl; [reflexivity|].
  now rewrite H, IH.
Qed.

Lemma filter_Subseq {A : Type} (f : A -> bool) (l : list A) : Subseq (filter f l) l.
Proof.
  induction l as [|x l IH]; simpl; [constructor|].
  destruct (f x); now constructor.
Qed.

Lemma Subseq_In {A : Type} (l1 l2 : list A) (x : A) :
  Subseq l1 l2 -> In x l1 -> In x l2.
Proof.
  induction 1 as [|y l1 l2 _ IH|y l1 l2 _ IH]; simpl; intuition.
Qed.

Lemma Subseq_length {A : Type} (l1 l2 : list A) :
  Subseq l1 l2 -> List.length l1 <= List.length l2.
Proof. induction 1; simpl; lia. Qed.

Lemma Subseq_map {A B : Type} (f : A -> B) (l1 l2 : list A) :
  Subseq l1 l2 -> Subseq (map f l1) (map f l2).
Proof. induction 1; simpl; now constructor. Qed.

Lemma Subseq_NoDup {A : Type} (l1 l2 : list A) :
  Subseq l1 l2 -> NoDup l2 -> NoDup l1.
Proof.
  induction 1 as [|y l1 l2 Hs IH|y l1 l2 Hs IH]; intros Hnd.
  - constructor.
  - inversion Hnd; auto.
  - inversion Hnd as [|? ? Hnot Hnd']; subst. constructor; [|auto].
    intros Hin. apply Hnot. eapply Subseq_In; eassumption.
Qed.

(** The single-file filter decides item by item. *)
Lemma full_filter_as_filter (all : list AppFull.VideoItem) (q : string)
      (activeTag : option string) :
  AppFull.useFilteredVideos all q activeTag = filter (fullKeeps q activeTag) all.
Proof.
  unfold AppFull.useFilteredVideos, fullKeeps. fold (normalize q).
  destruct (truthy (normalize q)); destruct (truthyOpt activeTag) eqn:Ht;
    destruct activeTag as [t|]; simpl in *; try discriminate;
    rewrite ?filter_twice;
    try (symmetry; apply filter_all; reflexivity);
    apply filter_ext; intros v;
    now rewrite ?andb_true_r.
Qed.

(** So does the hook. *)
Lemma routed_filter_as_filter (videos : list AppRouted.VideoItem) (query : string)
      (activeTag : option string) :
  AppRouted.useFilteredVideos videos query activeTag =
  filter (hookKeeps query activeTag) videos.
Proof.
  unfold AppRouted.useFilteredVideos, hookKeeps.
  destruct (truthy (trim query)); destruct (truthyOpt activeTag) eqn:Ht;
    destruct activeTag as [t|]; simpl in *; try discriminate;
    rewrite ?filter_twice;
    try (symmetry; apply filter_all; reflexivity);
    apply filter_ext; intros v;
    now rewrite ?andb_true_r.
Qed.

(** X1: the result of either filter is the catalog with some items left
    out: the kept items are in catalog order, and there are no more of
    them than items in the catalog. *)
Theorem filter_keeps_catalog_order :
  (forall all q activeTag,
      Subseq (AppFull.useFilteredVideos all q activeTag) all /\
      List.length (AppFull.useFilteredVideos all q activeTag) <= List.length all) /\
  (forall videos query activeTag,
      Subseq (AppRouted.useFilteredVideos videos query activeTag) videos /\
      List.length (AppRouted.useFilteredVideos videos query activeTag)
      <= List.length videos).
Proof.
  split; intros l q t.
  - rewrite full_filter_as_filter.
    split; [|apply Subseq_length]; apply filter_Subseq.
  - rewrite routed_filter_as_filter.
    split; [|apply Subseq_length]; apply filter_Subseq.
Qed.

(** X2: filtering a result again with the same query and tag changes
    nothing. *)
Theorem filter_idempotent :
  (forall all q activeTag,
      AppFull.useFilteredVideos (AppFull.useFilteredVideos all q activeTag) q activeTag
      = AppFull.useFilteredVideos all q activeTag) /\
  (forall videos query activeTag,
      AppRouted.useFilteredVideos
        (AppRouted.useFilteredVideos videos query activeTag) query activeTag
      = AppRouted.useFilteredVideos videos query activeTag).
Proof.
  split; intros l q t.
  - rewrite !full_filter_as_filter, filter_twice.
    apply filter_ext. intros v. now destruct (fullKeeps q t v).
  - rewrite !routed_filter_as_filter, filter_twice.
    apply filter_ext. intros v. now destruct (hookKeeps q t v).
Qed.

(** X3: the result for a catalog made of two parts is the result for the
    first part followed by the result for the second. *)
Theorem filter_distributes_over_append :
  (forall (l1 l2 : list AppFull.VideoItem) q activeTag,
      AppFull.useFilteredVideos (l1 ++ l2)%list q activeTag =
      (AppFull.useFilteredVideos l1 q activeTag ++
       AppFull.useFilteredVideos l2 q activeTag)%list) /\
  (forall (l1 l2 : list AppRouted.VideoItem) query activeTag,
      AppRouted.useFilteredVideos (l1 ++ l2)%list query activeTag =
      (AppRouted.useFilteredVideos l1 query activeTag ++
       AppRouted.useFilteredVideos l2 query activeTag)%list).
Proof.
  split; intros l1 l2 q t.
  - rewrite !full_filter_as_filter. apply filter_app.
  - rewrite !routed_filter_as_filter. apply filter_app.
Qed.

(** X4: searching and then picking a tag, picking a tag and then
    searching, and doing both at once give the same list. *)
Theorem filter_stages_compose :
  (forall all q activeTag,
      AppFull.useFilteredVideos (AppFull.useFilteredVideos all q None) "" activeTag
      = AppFull.useFilteredVideos all q activeTag /\
      AppFull.useFilteredVideos (AppFull.useFilteredVideos all "" activeTag) q None
      = AppFull.useFilteredVideos all q activeTag) /\
  (forall videos query activeTag,
      AppRouted.useFilteredVideos
        (AppRouted.useFilteredVideos videos query None) "" activeTag
      = AppRouted.useFilteredVideos videos query activeTag /\
      AppRouted.useFilteredVideos
        (AppRouted.useFilteredVideos videos "" activeTag) query None
      = AppRouted.useFilteredVideos videos query activeTag).
Proof.
  split; intros l q t; split.
  - rewrite !full_filter_as_filter, filter_twice. apply filter_ext. intros v.
    unfold fullKeeps. simpl. now rewrite andb_true_r.
  - rewrite !full_filter_as_filter, filter_twice. apply filter_ext. intros v.
    unfold fullKeeps. simpl. now rewrite andb_true_r, andb_comm.
  - rewrite !routed_filter_as_filter, filter_twice. apply filter_ext. intros v.
    unfold hookKeeps. simpl. now rewrite andb_true_r.
  - rewrite !routed_filter_as_filter, filter_twice. apply filter_ext. intros v.
    unfold hookKeeps. simpl. now rewrite andb_true_r, andb_comm.
Qed.

Lemma trimStart_suffix (s : string) : exists pre, s = pre ++ trimStart s.
Proof.
  induction s as [|c s [pre IH]]; simpl.
  - now exists "".
  - destruct (isWhiteSpace c).
    + exists (String c pre). simpl. now rewrite <- IH.
    + now exists "".
Qed.

Lemma trimEnd_prefix (s : string) : exists post, s = trimEnd s ++ post.
Proof.
  induction s as [|c s [post IH]]; simpl.
  - now exists "".
  - destruct (trimEnd s) as [|d r] eqn:E.
    + destruct (isWhiteSpace c).
      * now exists (String c s).
      * exists post. simpl in *. now rewrite <- IH.
    + exists post. simpl in *. now rewrite <- IH.
Qed.

(** The trimmed string occurs in the string. *)
Lemma Substring_trim (s : string) : Substring (trim s) s.
Proof.
  unfold trim. destruct (trimStart_suffix s) as [pre Hpre].
  destruct (trimEnd_prefix (trimStart s)) as [post Hpost].
  exists pre, post. now rewrite <- Hpost.
Qed.

Lemma toLowerCase_append (a b : string) :
  toLowerCase (a ++ b) = toLowerCase a ++ toLowerCase b.
Proof. induction a as [|c a IH]; simpl; [reflexivity | now rewrite IH]. Qed.

Lemma Substring_toLowerCase (a b : string) :
  Substring a b -> Substring (toLowerCase a) (toLowerCase b).
Proof.
  intros [pre [post ->]]. exists (toLowerCase pre), (toLowerCase post).
  now rewrite !toLowerCase_append.
Qed.

Lemma Substring_trans (a b c : string) :
  Substring a b -> Substring b c -> Substring a c.
Proof.
  intros [p1 [q1 ->]] [p2 [q2 ->]]. exists (p2 ++ p1), (q1 ++ q2).
  now rewrite !append_assoc.
Qed.

Lemma trim_all_white (q : string) : allWhite q = true -> trim q = "".
Proof. intros H. unfold trim. now rewrite trimStart_all_white. Qed.

(** X5: whatever the hook keeps, the single-file filter keeps too, for
    the same query and tag and an item with the same title and tags;
    the description and the joined tags can only add matches. *)
Theorem hook_result_within_full_result
    (videos : list AppRouted.VideoItem) (all : list AppFull.VideoItem)
    (q : string) (activeTag : option string)
    (v : AppRouted.VideoItem) (w : AppFull.VideoItem) :
  In v (AppRouted.useFilteredVideos videos q activeTag) ->
  In w all ->
  AppFull.title w = AppRouted.title v ->
  AppFull.tags w = AppRouted.tags v ->
  In w (AppFull.useFilteredVideos all q activeTag).
Proof.
  intros Hv Hw Htitle Htags.
  apply routed_filter_In in Hv as [_ [Htext Htag]].
  apply full_filter_In. split; [assumption|]. split.
  - destruct (trim q) as [|c r] eqn:E.
    + unfold normalize. rewrite E. apply MatchesText_nil.
    + left. unfold InTitle. rewrite Htitle.
      eapply Substring_trans; [|apply Htext; rewrite E; discriminate].
      unfold normalize. apply Substring_toLowerCase, Substring_trim.
  - destruct activeTag as [t|]; simpl in *; [|exact I].
    intros Ht. destruct (Htag Ht) as [ts [H1 H2]].
    exists ts. split; [congruence | assumption].
Qed.

(** X5, witness: the query ["Sample "] on the two catalogs of the
    scenario. *)
Lemma hook_result_within_full_result_witness :
  In scenarioV1 (AppFull.useFilteredVideos scenario "Sample " None).
Proof.
  apply (hook_result_within_full_result
           AppRouted.VIDEOS scenario "Sample " None AppRouted.videoV1 scenarioV1).
  - left. reflexivity.
  - left. reflexivity.
  - reflexivity.
  - reflexivity.
Defined.

(** X6: a query made of white space only is no query: both filters
    return what they return for the empty query. *)
Theorem blank_query_is_no_query (q : string) :
  allWhite q = true ->
  (forall all activeTag,
      AppFull.useFilteredVideos all q activeTag =
      AppFull.useFilteredVideos all "" activeTag) /\
  (forall videos activeTag,
      AppRouted.useFilteredVideos videos q activeTag =
      AppRouted.useFilteredVideos videos "" activeTag).
Proof.
  intros H. apply trim_all_white in H. split.
  - intros all t. apply full_filter_normalize. unfold normalize. now rewrite H.
  - intros videos t. unfold AppRouted.useFilteredVideos. now rewrite H.
Qed.

(** X6, witness: a blank, a tab and a line feed. *)
Lemma blank_query_is_no_query_witness :
  AppRouted.useFilteredVideos AppRouted.VIDEOS
    (String " " (String (ascii_of_nat 9) (String (ascii_of_nat 10) ""))) None
  = AppRouted.useFilteredVideos AppRouted.VIDEOS "" None.
Proof.
  apply (proj2 (blank_query_is_no_query
                  (String " " (String (ascii_of_nat 9) (String (ascii_of_nat 10) "")))
                  eq_refl)).
Defined.

(** X7: when the ids of the catalog are pairwise distinct, so are the
    ids of the result, which are the keys of the rendered cards. *)
Theorem filter_keeps_ids_distinct :
  (forall all q activeTag,
      NoDup (map AppFull.id all) ->
      NoDup (map AppFull.id (AppFull.useFilteredVideos all q activeTag))) /\
  (forall videos query activeTag,
      NoDup (map AppRouted.id videos) ->
      NoDup (map AppRouted.id (AppRouted.useFilteredVideos videos query activeTag))).
Proof.
  split; intros l q t H.
  - eapply Subseq_NoDup; [|exact H]. apply Subseq_map.
    rewrite full_filter_as_filter. apply filter_Subseq.
  - eapply Subseq_NoDup; [|exact H]. apply Subseq_map.
    rewrite routed_filter_as_filter. apply filter_Subseq.
Qed.

(** X7, witness: the catalog of the routed application, ids v1 and v2. *)
Lemma filter_keeps_ids_distinct_witness :
  NoDup (map AppRouted.id
             (AppRouted.useFilteredVideos AppRouted.VIDEOS "video" (Some "live"))).
Proof.
  apply (proj2 filter_keeps_ids_distinct AppRouted.VIDEOS "video" (Some "live")).
  simpl. constructor.
  - intros [H | []]. discriminate H.
  - constructor; [intros [] | constructor].
Defined.

(* ------------------------------------------------------------------ *)
(** * [classNames] *)
(* ------------------------------------------------------------------ *)







(* ------------------------------------------------------------------ *)
(** * The tag buttons of [UniqueTags] *)
(* ------------------------------------------------------------------ *)

Lemma tagHighlighted_allButton (active : option string) :
  tagHighlighted (Views.allButton active) = isNull active.
Proof. now destruct active. Qed.

Lemma tagHighlighted_tagButton (active : option string) (t : string) :
  tagHighlighted (Views.tagButton active t) = strictEq active t.
Proof.
  unfold tagHighlighted, Views.tagButton. simpl.
  now destruct (strictEq active t).
Qed.

Lemma filter_eqb_NoDup (a : string) (l : list string) :
  NoDup l ->
  filter (String.eqb a) l = if existsb (String.eqb a) l then [a] else [].
Proof.
  induction 1 as [|x l Hnot Hnd IH]; simpl; [reflexivity|].
  destruct (String.eqb a x) eqn:E; simpl.
  - apply String.eqb_eq in E. subst x. rewrite IH.
    destruct (existsb (String.eqb a) l) eqn:Ex; [|reflexivity].
    apply existsb_eqb_In in Ex. contradiction.
  - exact IH.
Qed.

Lemma filter_tagButtons (a : string) (l : list string) :
  filter tagHighlighted (map (Views.tagButton (Some a)) l) =
  map (Views.tagButton (Some a)) (filter (String.eqb a) l).
Proof.
  induction l as [|x l IH]; cbn [map filter]; [reflexivity|].
  rewrite tagHighlighted_tagButton. cbn [strictEq].
  destruct (String.eqb a x); cbn [map]; now rewrite IH.
Qed.

Lemma filter_tagButtons_none (l : list string) :
  filter tagHighlighted (map (Views.tagButton None) l) = [].
Proof.
  induction l as [|x l IH]; cbn [map filter]; [reflexivity|].
  now rewrite tagHighlighted_tagButton.
Qed.

(** X9: [UniqueTags] renders nothing exactly when no item of the catalog
    carries a tag. *)
Theorem UniqueTags_renders_nothing_iff_no_tags
    (videos : list AppFull.VideoItem) (active : option string) :
  Views.UniqueTags videos active = None <->
  (forall v, In v videos -> AppFull.tags v = None \/ AppFull.tags v = Some []).
Proof.
  unfold Views.UniqueTags.
  destruct (AppFull.uniqueTags videos) as [|t ts] eqn:E; simpl.
  - split; [intros _ | reflexivity]. intros v Hv.
    destruct (AppFull.tags v) as [[|x l]|] eqn:Et; auto.
    assert (Hin : In x (AppFull.uniqueTags videos)).
    { apply uniqueTags_In. exists v. split; [assumption|].
      exists (x :: l). split; [assumption | now left]. }
    rewrite E in Hin. destruct Hin.
  - split; [discriminate|]. intros H. exfalso.
    assert (Hin : In t (AppFull.uniqueTags videos)) by (rewrite E; now left).
    apply uniqueTags_In in Hin as [v [Hv [l [Hl Ht]]]].
    destruct (H v Hv) as [Hn | Hn]; rewrite Hn in Hl; [discriminate|].
    injection Hl as <-. destruct Ht.
Qed.

(** X9, witness: a catalog whose only entry has no tag list. *)
Lemma UniqueTags_renders_nothing_iff_no_tags_witness :
  Views.UniqueTags [noSourceItem] (Some "music") = None.
Proof.
  apply (proj2 (UniqueTags_renders_nothing_iff_no_tags [noSourceItem] (Some "music"))).
  intros v [<- | []]. left. reflexivity.
Defined.

(** X10: among the buttons [UniqueTags] renders, the selected one is the
    only one drawn as selected: "All" when no tag is active, the button
    of the active tag when it is a tag of the catalog, and none when the
    active tag is not in the vocabulary. *)
Theorem UniqueTags_highlights_the_selection
    (videos : list AppFull.VideoItem) (active : option string)
    (buttons : list Views.TagButton) :
  Views.UniqueTags videos active = Some buttons ->
  match active with
  | None => filter tagHighlighted buttons = [Views.allButton None]
  | Some t =>
      filter tagHighlighted buttons =
      if existsb (String.eqb t) (AppFull.uniqueTags videos)
      then [Views.tagButton (Some t) t]
      else []
  end.
Proof.
  unfold Views.UniqueTags.
  destruct (Nat.eqb (List.length (AppFull.uniqueTags videos)) 0); [discriminate|].
  intros H. injection H as <-.
  destruct active as [t|].
  - cbn [filter]. rewrite tagHighlighted_allButton. cbn [isNull].
    rewrite filter_tagButtons, filter_eqb_NoDup.
    + now destruct (existsb (String.eqb t) (AppFull.uniqueTags videos)).
    + apply sorted_NoDup, uniqueTags_sorted.
  - cbn [filter]. rewrite tagHighlighted_allButton. cbn [isNull].
    now rewrite filter_tagButtons_none.
Qed.

(** X10, witness: the scenario catalog with the tag ["music"] active. *)
Lemma UniqueTags_highlights_the_selection_witness :
  filter tagHighlighted
    (Views.allButton (Some "music")
       :: map (Views.tagButton (Some "music")) (AppFull.uniqueTags scenario))
  = [Views.tagButton (Some "music") "music"].
Proof.
  apply (UniqueTags_highlights_the_selection scenario (Some "music")).
  reflexivity.
Defined.

(** X11: every button [UniqueTags] offers leads somewhere: with an empty
    query, picking a tag button gives a list that is not empty, and the
    "All" button gives the whole catalog. *)
Theorem UniqueTags_buttons_select_something
    (videos : list AppFull.VideoItem) (active : option string)
    (buttons : list Views.TagButton) (b : Views.TagButton) :
  Views.UniqueTags videos active = Some buttons ->
  In b buttons ->
  match Views.tagPick b with
  | Some t => AppFull.useFilteredVideos videos "" (Some t) <> []
  | None => AppFull.useFilteredVideos videos "" None = videos
  end.
Proof.
  unfold Views.UniqueTags.
  destruct (Nat.eqb (List.length (AppFull.uniqueTags videos)) 0); [discriminate|].
  intros H Hb. injection H as <-. destruct Hb as [<- | Hb]; [reflexivity|].
  apply in_map_iff in Hb as [t [<- Ht]]. simpl.
  apply uniqueTags_In in Ht as [v [Hv Ht]].
  assert (Hin : In v (AppFull.useFilteredVideos videos "" (Some t))).
  { apply full_filter_In. split; [assumption|].
    split; [apply MatchesText_nil | intros _; exact Ht]. }
  intros E. rewrite E in Hin. destruct Hin.
Qed.

(** X11, witness: the button of the tag ["live"] of the scenario. *)
Lemma UniqueTags_buttons_select_something_witness :
  AppFull.useFilteredVideos scenario "" (Some "live") <> [].
Proof.
  apply (UniqueTags_buttons_select_something scenario None
           (Views.allButton None
              :: map (Views.tagButton None) (AppFull.uniqueTags scenario))
           (Views.tagButton None "live")).
  - reflexivity.
  - right. right. left. reflexivity.
Defined.

(* ------------------------------------------------------------------ *)
(** * The routed application: list view and detail view *)
(* ------------------------------------------------------------------ *)

Lemma strictEq_true_iff (x : option string) (t : string) :
  strictEq x t = true <-> x = Some t.
Proof.
  destruct x as [a|]; simpl; [|split; discriminate].
  rewrite String.eqb_eq. split; congruence.
Qed.

Lemma find_first {A : Type} (p : A -> bool) (l : list A) (v : A) :
  find p l = Some v <->
  exists l1 l2, l = (l1 ++ v :: l2)%list /\ p v = true /\
                forall u, In u l1 -> p u = false.
Proof.
  induction l as [|x l IH]; simpl.
  - split; [discriminate|]. intros [l1 [l2 [H _]]]. now destruct l1.
  - destruct (p x) eqn:E.
    + split.
      * intros H. injection H as <-. exists [], l. simpl. tauto.
      * intros [l1 [l2 [H [Hv Hu]]]]. destruct l1 as [|y l1]; simpl in H.
        -- now injection H as ->.
        -- injection H as <- _. rewrite (Hu x) in E by now left. discriminate.
    + rewrite IH. split.
      * intros [l1 [l2 [-> [Hv Hu]]]]. exists (x :: l1), l2. simpl.
        repeat split; try assumption. intros u [<- | Hin]; auto.
      * intros [l1 [l2 [H [Hv Hu]]]]. destruct l1 as [|y l1]; simpl in H.
        -- injection H as -> _. congruence.
        -- injection H as _ ->. exists l1, l2. repeat split; try assumption.
           intros u Hin. apply Hu. now right.
Qed.

(** X12: the detail view answers "not found" exactly when no item of the
    catalog has the requested id (in particular when the id is
    undefined); otherwise it shows the first item of the catalog with
    that id. *)
Theorem VideoPage_shows_first_match
    (videos : list AppRouted.VideoItem) (id : option string) :
  (RoutedViews.VideoPage videos id = RoutedViews.NotFound <->
   forall v, In v videos -> id <> Some (AppRouted.id v)) /\
  (forall v,
      RoutedViews.findVideo videos id = Some v ->
      RoutedViews.VideoPage videos id =
        RoutedViews.VideoDetail (AppRouted.title v) (AppRouted.src v) /\
      exists l1 l2,
        videos = (l1 ++ v :: l2)%list /\ id = Some (AppRouted.id v) /\
        forall u, In u l1 -> AppRouted.id u <> AppRouted.id v).
Proof.
  unfold RoutedViews.VideoPage, RoutedViews.findVideo. split.
  - destruct (find _ videos) as [v|] eqn:E.
    + split; [discriminate|]. intros H. exfalso.
      apply find_some in E as [Hin Hv]. apply strictEq_true_iff in Hv.
      exact (H v Hin Hv).
    + split; [|reflexivity]. intros _ v Hin Hid.
      apply (find_none _ _ E) in Hin. apply strictEq_true_iff in Hid. congruence.
  - intros v E. rewrite E. split; [reflexivity|].
    apply find_first in E as [l1 [l2 [Hl [Hv Hu]]]].
    apply strictEq_true_iff in Hv.
    exists l1, l2. repeat split; try assumption.
    intros u Hin Heq. specialize (Hu u Hin).
    rewrite Heq in Hu. apply strictEq_true_iff in Hv. congruence.
Qed.

(** X12, witness: the id ["v2"] in the catalog of the routed
    application. *)
Lemma VideoPage_shows_first_match_witness :
  RoutedViews.VideoPage AppRouted.VIDEOS (Some "v2") =
  RoutedViews.VideoDetail "Sample Video 2" "https://www.w3schools.com/html/movie.mp4".
Proof.
  apply (proj2 (VideoPage_shows_first_match AppRouted.VIDEOS (Some "v2"))
               AppRouted.videoV2).
  reflexivity.
Defined.

Lemma find_unique_id (videos : list AppRouted.VideoItem) (v : AppRouted.VideoItem) :
  NoDup (map AppRouted.id videos) -> In v videos ->
  RoutedViews.findVideo videos (Some (AppRouted.id v)) = Some v.
Proof.
  unfold RoutedViews.findVideo.
  induction videos as [|x l IH]; simpl; intros Hnd Hin; [destruct Hin|].
  inversion Hnd as [|? ? Hnot Hnd']; subst.
  destruct (String.eqb (AppRouted.id v) (AppRouted.id x)) eqn:E.
  - destruct Hin as [-> | Hin]; [reflexivity|].
    apply String.eqb_eq in E. exfalso. apply Hnot. rewrite <- E.
    now apply in_map.
  - destruct Hin as [-> | Hin]; [now rewrite String.eqb_refl in E | auto].
Qed.

(** X13: every link of the list view, whatever the query and the tag,
    has the target ["/video/" ++ id] and the title of an item the filter
    kept.  Whenever the router hands that id to the detail view as it
    is, the detail view after the click shows an item and never "not
    found"; when, in addition, the ids of the catalog are pairwise
    distinct, it shows the item of the link, under the title the link
    shows.  The router is any function: nothing is said of a link whose
    id the router does not hand over unchanged. *)
Theorem home_links_resolve
    (router : RoutedViews.Router)
    (videos : list AppRouted.VideoItem) (query : string) (activeTag : option string)
    (link : RoutedViews.HomeLink) :
  In link (RoutedViews.homeLinks (RoutedViews.homeRoute videos query activeTag)) ->
  exists v,
    In v (AppRouted.useFilteredVideos videos query activeTag) /\
    In v videos /\
    RoutedViews.linkTo link = "/video/" ++ AppRouted.id v /\
    RoutedViews.linkText link = AppRouted.title v /\
    (router (RoutedViews.linkTo link) = Some (AppRouted.id v) ->
     (exists heading videoSrc,
         RoutedViews.videoRoute router videos (RoutedViews.linkTo link) =
         Some (RoutedViews.VideoDetail heading videoSrc)) /\
     (NoDup (map AppRouted.id videos) ->
      RoutedViews.videoRoute router videos (RoutedViews.linkTo link) =
      Some (RoutedViews.VideoDetail (RoutedViews.linkText link) (AppRouted.src v)))).
Proof.
  unfold RoutedViews.homeRoute. simpl. intros H.
  apply in_map_iff in H as [v [<- Hv]].
  pose proof Hv as Hin. apply routed_filter_In in Hin as [Hin _].
  exists v. simpl. repeat split; try assumption.
  - unfold RoutedViews.videoRoute. rewrite H. unfold RoutedViews.VideoPage.
    destruct (RoutedViews.findVideo videos (Some (AppRouted.id v))) as [u|] eqn:E.
    + eauto.
    + exfalso. unfold RoutedViews.findVideo in E.
      apply (find_none _ _ E) in Hin. simpl in Hin.
      now rewrite String.eqb_refl in Hin.
  - intros Hnd. unfold RoutedViews.videoRoute. rewrite H.
    unfold RoutedViews.VideoPage. now rewrite find_unique_id.
Qed.

(** X13, witness: the one link left by the query ["video 2"], with the
    router for plain ids. *)
Lemma home_links_resolve_witness :
  RoutedViews.videoRoute plainRouter AppRouted.VIDEOS "/video/v2" =
  Some (RoutedViews.VideoDetail "Sample Video 2"
                                "https://www.w3schools.com/html/movie.mp4").
Proof.
  destruct (home_links_resolve plainRouter AppRouted.VIDEOS "video 2" None
              {| RoutedViews.linkKey := "v2"; RoutedViews.linkTo := "/video/v2";
                 RoutedViews.linkText := "Sample Video 2" |})
    as [v [Hv [_ [_ [_ H]]]]].
  - left. reflexivity.
  - destruct Hv as [<- | []].
    apply H.
    + reflexivity.
    + simpl. constructor.
      * intros [E | []]. discriminate E.
      * constructor; [intros [] | constructor].
Defined.

(** X14: the list view takes its tag buttons from the filtered list.
    Every tag offered is a tag of a listed item; while a tag is active
    and the list is not empty, the button of that tag is offered and is
    the one drawn as selected; when the list is empty only "All" is
    left. *)
Theorem home_tag_buttons_follow_the_result
    (videos : list AppRouted.VideoItem) (query : string) (activeTag : option string) :
  let result := AppRouted.useFilteredVideos videos query activeTag in
  let buttons := RoutedViews.homeButtons (RoutedViews.homeRoute videos query activeTag) in
  (forall b t, In b buttons -> RoutedViews.homePick b = Some t ->
               exists v, In v result /\ HasTagR t v) /\
  (forall t, activeTag = Some t -> t <> "" -> result <> [] ->
             exists b, In b buttons /\ RoutedViews.homePick b = Some t /\
                       homeHighlighted b = true) /\
  (result = [] -> List.length buttons = 1).
Proof.
  intros result buttons. subst buttons. unfold RoutedViews.homeRoute. simpl.
  fold result. repeat apply conj.
  - intros b t [<- | Hb]; [discriminate|]. intros Hp.
    apply in_map_iff in Hb as [t' [<- Ht]]. simpl in Hp. injection Hp as ->.
    now apply archiveHomeTags_is_union in Ht.
  - intros t -> Ht Hne. destruct result as [|v l] eqn:E; [congruence|].
    assert (Hv : In v result) by (rewrite E; now left).
    unfold result in Hv. apply routed_filter_In in Hv as [_ [_ Htag]].
    simpl in Htag. specialize (Htag Ht).
    eexists. split.
    + right. apply in_map_iff. exists t. split; [reflexivity|].
      apply archiveHomeTags_is_union. exists v. split; [now left | assumption].
    + split; [reflexivity|]. unfold homeHighlighted. simpl.
      now rewrite String.eqb_refl.
  - intros ->. reflexivity.
Qed.

(** X14, witness: the tag ["music"] on the catalog of the routed
    application. *)
Lemma home_tag_buttons_follow_the_result_witness :
  exists b,
    In b (RoutedViews.homeButtons
            (RoutedViews.homeRoute AppRouted.VIDEOS "" (Some "music"))) /\
    RoutedViews.homePick b = Some "music" /\ homeHighlighted b = true.
Proof.
  apply (proj1 (proj2 (home_tag_buttons_follow_the_result
                         AppRouted.VIDEOS "" (Some "music"))) "music").
  - reflexivity.
  - discriminate.
  - discriminate.
Defined.

(* ------------------------------------------------------------------ *)
(** * Playback session: further invariants *)
(* ------------------------------------------------------------------ *)

Section PlayerFurther.
Import Player.

Variable env : Env.
Variable video : AppFull.VideoItem.

Lemma effect_attachedIsActive (st : State) :
  live st = [] -> elSrc st = None -> AttachedIsActive (effect env st).
Proof.
  intros Hl He. unfold AttachedIsActive. effect_cases env st;
    rewrite ?Hl, ?He; split; intros x Hx; try discriminate; try (now destruct Hx).
  - injection Hx as <-. eauto.
  - destruct Hx as [<- | []]. simpl. eauto.
  - injection Hx as <-. eauto.
Qed.

Lemma step_attachedIsActive (st : State) (ev : Event) :
  Consistent st -> AttachedIsActive st -> AttachedIsActive (step env video st ev).
Proof.
  intros Hc H. unfold step. destruct (phase st); try assumption.
  destruct (runCleanup_clean st Hc) as [Hl [He _]].
  destruct ev as [i|h|].
  - destruct (nth_error (AppFull.sources video) i) as [s|]; [|assumption].
    destruct (Nat.eqb i (activeIx st)); [assumption|].
    now apply effect_attachedIsActive.
  - destruct (existsb _ (live st)); assumption.
  - unfold AttachedIsActive. simpl. rewrite Hl, He.
    split; [discriminate | intros h []].
Qed.

Lemma run_attachedIsActive (evs : list Event) :
  AttachedIsActive (run env video evs).
Proof.
  unfold run.
  apply (fold_step_invariant env video (fun st => Consistent st /\ AttachedIsActive st)).
  - intros st ev [Hc Ha].
    split; [now apply step_consistent | now apply step_attachedIsActive].
  - split.
    + apply effect_consistent; simpl; auto.
    + now apply effect_attachedIsActive.
Qed.


Lemma effect_freshIds (st : State) : FreshIds st -> FreshIds (effect env st).
Proof.
  intros H. unfold FreshIds in *. effect_cases env st; try assumption.
  intros h [<- | Hin]; simpl; [lia|]. specialize (H h Hin). lia.
Qed.

Lemma runCleanup_freshIds (st : State) : FreshIds st -> FreshIds (runCleanup st).
Proof.
  intros H. unfold FreshIds, runCleanup in *.
  destruct (cleanup st) as [[c|]|]; simpl; try assumption.
  intros h Hin. apply filter_In in Hin as [Hin _]. auto.
Qed.

Lemma step_freshIds (st : State) (ev : Event) :
  FreshIds st -> FreshIds (step env video st ev).
Proof.
  intros H. unfold step. destruct (phase st); try assumption.
  destruct ev as [i|h|].
  - destruct (nth_error (AppFull.sources video) i) as [s|]; [|assumption].
    destruct (Nat.eqb i (activeIx st)); [assumption|].
    apply effect_freshIds. apply runCleanup_freshIds in H. exact H.
  - destruct (existsb _ (live st)); assumption.
  - apply runCleanup_freshIds in H. exact H.
Qed.

Lemma run_freshIds (evs : list Event) : FreshIds (run env video evs).
Proof.
  unfold run. apply fold_step_invariant; [exact step_freshIds|].
  apply effect_freshIds. intros h [].
Qed.

Lemma runCleanup_nextId (st : State) : nextId (runCleanup st) = nextId st.
Proof. unfold runCleanup. now destruct (cleanup st). Qed.

(** After the effect on a state without streaming client, a client that
    is live is the one just made. *)
Lemma effect_live_new (st : State) (h : HlsInstance) :
  live st = [] -> In h (live (effect env st)) -> hlsId h = nextId st.
Proof.
  intros Hl. effect_cases env st; rewrite ?Hl; try (intros []; fail).
  intros [<- | []]. reflexivity.
Qed.


End PlayerFurther.

(* ------------------------------------------------------------------ *)
(** * Playback session: further properties *)
(* ------------------------------------------------------------------ *)

(** X15: what is attached plays the active source.  In every state of a
    session, a URL assigned to the element is the URL of the active
    source, and a live streaming client has loaded the URL of the active
    source, which is a playlist. *)
Theorem attached_resource_plays_active_source
    (env : Player.Env) (video : AppFull.VideoItem) (evs : list Player.Event) :
  (forall u, Player.elSrc (Player.run env video evs) = Some u ->
             exists s, Player.active (Player.run env video evs) = Some s /\
                       u = AppFull.src s) /\
  (forall h, In h (Player.live (Player.run env video evs)) ->
             exists s, Player.active (Player.run env video evs) = Some s /\
                       Player.loadedSource h = AppFull.src s /\
                       AppFull.type s = AppFull.hls).
Proof. exact (run_attachedIsActive env video evs). Qed.

(** X15, witness: the footer entry after the switch to its MP4. *)
Lemma attached_resource_plays_active_source_witness :
  exists s, Player.active (Player.run mseBrowser talk [Player.SelectSource 1]) = Some s /\
            "https://example.com/video-720.mp4" = AppFull.src s.
Proof.
  apply (proj1 (attached_resource_plays_active_source
                  mseBrowser talk [Player.SelectSource 1])).
  reflexivity.
Defined.

Lemma effect_direct (env : Player.Env) (st : Player.State) (s : AppFull.VideoSource) :
  Player.refCurrent env = true -> Player.live st = [] ->
  Player.active (Player.effect env st) = Some s -> DirectlyPlayed env s ->
  Player.canPlay (Player.effect env st) = true /\
  Player.elSrc (Player.effect env st) = Some (AppFull.src s) /\
  Player.live (Player.effect env st) = [].
Proof.
  intros Hr Hl. unfold DirectlyPlayed. effect_cases env st; try congruence;
    intros Ha Hd; try discriminate.
  - replace s with a by congruence. auto.
  - exfalso. replace s with a in Hd by congruence.
    destruct Hd as [Hd | [Hd _]]; congruence.
  - replace s with a by congruence. auto.
  - exfalso. replace s with a in Hd by congruence.
    destruct Hd as [Hd | [_ Hd]]; congruence.
Qed.

(** X16: a source played by direct assignment is ready at once.  While a
    session is on screen with its element, an active MP4, or an active
    playlist in a browser without the streaming client and with native
    support, has [canPlay = true], its URL assigned to the element and no
    streaming client. *)
Theorem direct_sources_are_ready
    (env : Player.Env) (video : AppFull.VideoItem) (evs : list Player.Event)
    (s : AppFull.VideoSource) :
  Player.refCurrent env = true ->
  Player.phase (Player.run env video evs) = Player.Mounted ->
  Player.active (Player.run env video evs) = Some s ->
  DirectlyPlayed env s ->
  Player.canPlay (Player.run env video evs) = true /\
  Player.elSrc (Player.run env video evs) = Some (AppFull.src s) /\
  Player.live (Player.run env video evs) = [].
Proof.
  intros Hr. revert s. unfold Player.run.
  apply (fold_step_invariant env video
           (fun st => Consistent st /\
                      forall s, Player.phase st = Player.Mounted ->
                                Player.active st = Some s -> DirectlyPlayed env s ->
                                Player.canPlay st = true /\
                                Player.elSrc st = Some (AppFull.src s) /\
                                Player.live st = [])).
  - intros st ev [Hc H]. split; [now apply step_consistent|].
    unfold Player.step. destruct (Player.phase st) eqn:Hp;
      try (intros s0 Hm; rewrite Hp in Hm; discriminate Hm).
    destruct (runCleanup_clean st Hc) as [Hl [He _]].
    destruct ev as [i|h|].
    + destruct (nth_error (AppFull.sources video) i) as [s'|];
        [|intros s0 _; exact (H s0 eq_refl)].
      destruct (Nat.eqb i (Player.activeIx st)); [intros s0 _; exact (H s0 eq_refl)|].
      intros s _. now apply effect_direct.
    + destruct (existsb _ (Player.live st)); [|intros s0 _; exact (H s0 eq_refl)].
      intros s _ Ha Hd. simpl in *. destruct (H s eq_refl Ha Hd) as [_ [H1 H2]]. auto.
    + intros s Hm. discriminate Hm.
  - split.
    + apply effect_consistent; simpl; auto.
    + intros s _. now apply effect_direct.
Qed.

(** X16, witness: the entry with the MP4 first, just opened. *)
Lemma direct_sources_are_ready_witness :
  Player.canPlay (Player.run mseBrowser talkMp4First []) = true /\
  Player.elSrc (Player.run mseBrowser talkMp4First []) = Some (AppFull.src mp4Source) /\
  Player.live (Player.run mseBrowser talkMp4First []) = [].
Proof.
  apply (direct_sources_are_ready mseBrowser talkMp4First [] mp4Source).
  - reflexivity.
  - reflexivity.
  - reflexivity.
  - left. reflexivity.
Defined.

(** X17: when the effect finds no element in [videoRef], it returns at
    once: whatever the events, nothing is ever attached and [canPlay]
    stays false. *)
Theorem without_element_nothing_is_attached
    (env : Player.Env) (video : AppFull.VideoItem) (evs : list Player.Event) :
  Player.refCurrent env = false ->
  Player.canPlay (Player.run env video evs) = false /\
  Player.attached (Player.run env video evs) = 0 /\
  Player.phase (Player.run env video evs) <> Player.Crashed.
Proof.
  intros Hr.
  assert (He : forall st, Player.effect env st =
                          {| Player.phase := Player.phase st;
                             Player.active := Player.active st;
                             Player.activeIx := Player.activeIx st;
                             Player.canPlay := Player.canPlay st;
                             Player.elSrc := Player.elSrc st;
                             Player.live := Player.live st;
                             Player.nextId := Player.nextId st;
                             Player.cleanup := None |}).
  { intros st. unfold Player.effect. now rewrite Hr. }
  unfold Player.run.
  apply (fold_step_invariant env video
           (fun st => Player.canPlay st = false /\ Player.attached st = 0 /\
                      Player.phase st <> Player.Crashed)).
  - intros st ev [Hc [Ha Hp]]. unfold Player.step.
    destruct (Player.phase st) eqn:E;
      try (split; [assumption|]; split; [assumption|]; rewrite E;
           first [discriminate | assumption]).
    assert (Hst : Player.canPlay st = false /\ Player.attached st = 0 /\
                  Player.phase st <> Player.Crashed).
    { split; [assumption|]. split; [assumption|]. rewrite E. discriminate. }
    assert (Hl : Player.live st = [])
      by (unfold Player.attached in Ha; destruct (Player.live st); [reflexivity | discriminate]).
    assert (Hcl : Player.attached (Player.runCleanup st) = 0 /\
                  Player.canPlay (Player.runCleanup st) = false /\
                  Player.phase (Player.runCleanup st) = Player.Mounted).
    { assert (Hs : Player.elSrc st = None).
      { unfold Player.attached in Ha. rewrite Hl in Ha.
        destruct (Player.elSrc st); [discriminate | reflexivity]. }
      unfold Player.runCleanup, Player.attached.
      destruct (Player.cleanup st) as [[c|]|]; simpl; rewrite ?Hl, ?Hs; auto. }
    destruct Hcl as [H1 [H2 H3]].
    destruct ev as [i|h|].
    + destruct (nth_error (AppFull.sources video) i) as [s|]; [|exact Hst].
      destruct (Nat.eqb i (Player.activeIx st)); [exact Hst|].
      rewrite He. unfold Player.attached in *. simpl. rewrite H3.
      split; [assumption|]. split; [assumption | discriminate].
    + rewrite Hl. simpl. exact Hst.
    + unfold Player.attached in *. simpl.
      split; [assumption|]. split; [assumption | discriminate].
  - unfold Player.openPlayer. rewrite He. unfold Player.attached. simpl.
    repeat split. discriminate.
Qed.

(** X17, witness: a browser whose ref is still empty. *)
Lemma without_element_nothing_is_attached_witness :
  let env := {| Player.isSupported := true; Player.canPlayType := "maybe";
                Player.refCurrent := false |} in
  Player.canPlay (Player.run env talk [Player.SelectSource 1]) = false /\
  Player.attached (Player.run env talk [Player.SelectSource 1]) = 0 /\
  Player.phase (Player.run env talk [Player.SelectSource 1]) <> Player.Crashed.
Proof.
  apply (without_element_nothing_is_attached
           {| Player.isSupported := true; Player.canPlayType := "maybe";
              Player.refCurrent := false |} talk [Player.SelectSource 1]).
  reflexivity.
Defined.



(** X19: a MANIFEST_PARSED signal of the client of the previous source,
    arriving after a switch to another source, changes nothing: that
    client was destroyed by the cleanup, and the client of the new
    source, if there is one, is another object. *)
Theorem stale_manifest_is_ignored
    (env : Player.Env) (video : AppFull.VideoItem) (evs : list Player.Event)
    (i : nat) (s : AppFull.VideoSource) (h : Player.HlsInstance) :
  Player.phase (Player.run env video evs) = Player.Mounted ->
  nth_error (AppFull.sources video) i = Some s ->
  i <> Player.activeIx (Player.run env video evs) ->
  In h (Player.live (Player.run env video evs)) ->
  Player.step env video
    (Player.step env video (Player.run env video evs) (Player.SelectSource i))
    (Player.ManifestParsed (Player.hlsId h))
  = Player.step env video (Player.run env video evs) (Player.SelectSource i).
Proof.
  intros Hp Hs Hi Hh.
  pose proof (run_consistent env video evs) as Hc.
  pose proof (run_freshIds env video evs h Hh) as Hfresh.
  set (st := Player.run env video evs) in *.
  destruct (runCleanup_clean st Hc) as [Hl _].
  assert (E : Player.step env video st (Player.SelectSource i) =
              Player.effect env (Player.setActive i s (Player.runCleanup st))).
  { unfold Player.step. rewrite Hp, Hs. apply Nat.eqb_neq in Hi. now rewrite Hi. }
  rewrite E. set (st' := Player.effect env _).
  unfold Player.step. destruct (Player.phase st'); try reflexivity.
  destruct (existsb _ (Player.live st')) eqn:Ex; [|reflexivity].
  apply existsb_exists in Ex as [x [Hx Heq]]. apply Nat.eqb_eq in Heq.
  apply effect_live_new in Hx; [|exact Hl]. simpl in Hx.
  rewrite runCleanup_nextId in Hx. lia.
Qed.

(** X19, witness: the footer entry; the signal of its first client comes
    after the switch to the MP4. *)
Lemma stale_manifest_is_ignored_witness :
  Player.step mseBrowser talk
    (Player.step mseBrowser talk (Player.run mseBrowser talk []) (Player.SelectSource 1))
    (Player.ManifestParsed 0)
  = Player.step mseBrowser talk (Player.run mseBrowser talk []) (Player.SelectSource 1).
Proof.
  apply (stale_manifest_is_ignored mseBrowser talk [] 1 mp4Source
           {| Player.hlsId := 0; Player.loadedSource := AppFull.src hlsSource |}).
  - reflexivity.
  - reflexivity.
  - discriminate.
  - left. reflexivity.
Defined.

(** X20: a second click on the same source button does nothing: in any
    state, selecting a source twice in a row leaves the session as the
    first selection left it, without a second teardown and attach. *)
Theorem selecting_twice_is_selecting_once
    (env : Player.Env) (video : AppFull.VideoItem) (st : Player.State) (i : nat) :
  Player.step env video (Player.step env video st (Player.SelectSource i))
              (Player.SelectSource i)
  = Player.step env video st (Player.SelectSource i).
Proof.
  assert (Hsame : forall st0,
             (Player.phase st0 = Player.Mounted ->
              nth_error (AppFull.sources video) i <> None ->
              Player.activeIx st0 = i) ->
             Player.step env video st0 (Player.SelectSource i) = st0).
  { intros st0 H. unfold Player.step. destruct (Player.phase st0); try reflexivity.
    destruct (nth_error (AppFull.sources video) i); [|reflexivity].
    rewrite H by (reflexivity || discriminate). now rewrite Nat.eqb_refl. }
  destruct (Player.phase st) eqn:Hp.
  - destruct (nth_error (AppFull.sources video) i) as [s|] eqn:Hs.
    + destruct (Nat.eqb i (Player.activeIx st)) eqn:Hi.
      * assert (E : Player.step env video st (Player.SelectSource i) = st).
        { apply Hsame. intros _ _. apply Nat.eqb_eq in Hi. congruence. }
        now rewrite !E.
      * assert (E : Player.step env video st (Player.SelectSource i) =
                    Player.effect env (Player.setActive i s (Player.runCleanup st))).
        { unfold Player.step. now rewrite Hp, Hs, Hi. }
        rewrite E. apply Hsame. intros _ _. now rewrite effect_activeIx.
    + assert (E : Player.step env video st (Player.SelectSource i) = st).
      { apply Hsame. intros _ H. congruence. }
      now rewrite !E.
  - assert (E : Player.step env video st (Player.SelectSource i) = st).
    { apply Hsame. intros H. congruence. }
    now rewrite !E.
  - assert (E : Player.step env video st (Player.SelectSource i) = st).
    { apply Hsame. intros H. congruence. }
    now rewrite !E.
Qed.

(* ------------------------------------------------------------------ *)
(** * The buttons of [SourceSelector] *)
(* ------------------------------------------------------------------ *)

Lemma srcHighlighted_sourceButton (cur s : AppFull.VideoSource) :
  srcHighlighted (Views.sourceButton cur s) =
  String.eqb (AppFull.src s) (AppFull.src cur).
Proof.
  unfold srcHighlighted, Views.sourceButton. simpl.
  now destruct (String.eqb (AppFull.src s) (AppFull.src cur)).
Qed.

Lemma filter_sourceButtons_none (cur : AppFull.VideoSource)
      (l : list AppFull.VideoSource) :
  ~ In (AppFull.src cur) (map AppFull.src l) ->
  filter srcHighlighted (map (Views.sourceButton cur) l) = [].
Proof.
  induction l as [|x l IH]; cbn [map filter]; intros H; [reflexivity|].
  rewrite srcHighlighted_sourceButton.
  destruct (String.eqb (AppFull.src x) (AppFull.src cur)) eqn:E.
  - apply String.eqb_eq in E. exfalso. apply H. now left.
  - apply IH. intros Hin. apply H. now right.
Qed.

Lemma filter_sourceButtons_one (cur : AppFull.VideoSource)
      (l : list AppFull.VideoSource) :
  NoDup (map AppFull.src l) -> In cur l ->
  filter srcHighlighted (map (Views.sourceButton cur) l) = [Views.sourceButton cur cur].
Proof.
  induction l as [|x l IH]; cbn [map filter]; intros Hnd Hin; [destruct Hin|].
  inversion Hnd as [|? ? Hnot Hnd']; subst.
  rewrite srcHighlighted_sourceButton.
  destruct Hin as [-> | Hin].
  - rewrite String.eqb_refl. now rewrite filter_sourceButtons_none.
  - destruct (String.eqb (AppFull.src x) (AppFull.src cur)) eqn:E; [|auto].
    apply String.eqb_eq in E. exfalso. apply Hnot. rewrite E. now apply in_map.
Qed.

(* ------------------------------------------------------------------ *)
(** * The player inside [App] *)
(* ------------------------------------------------------------------ *)

Section ModalInvariants.

Variable env : Player.Env.
Variable videos : list AppFull.VideoItem.

(** A click on a source button of the item [active] was read from is
    the step of the session on that item. *)
Lemma select_same_item (video : AppFull.VideoItem) (st : Player.State) (i : nat) :
  Modal.select env video true st i =
  Player.step env video st (Player.SelectSource i).
Proof. reflexivity. Qed.

Lemma step_keeps_active (video : AppFull.VideoItem) (st : Player.State)
      (ev : Player.Event) :
  (forall i, ev <> Player.SelectSource i) ->
  Player.active (Player.step env video st ev) = Player.active st /\
  Player.activeIx (Player.step env video st ev) = Player.activeIx st.
Proof.
  intros Hev. unfold Player.step. destruct (Player.phase st); auto.
  destruct ev as [i|h|].
  - now elim (Hev i).
  - destruct (existsb _ (Player.live st)); auto.
  - simpl. destruct (runCleanup_active st) as [-> [-> _]]. auto.
Qed.

Lemma activeIsSource_kept (v video : AppFull.VideoItem) (st : Player.State)
      (ev : Player.Event) :
  (forall i, ev <> Player.SelectSource i) ->
  ActiveIsSource v st -> ActiveIsSource v (Player.step env video st ev).
Proof.
  intros Hev H. unfold ActiveIsSource in *.
  destruct (step_keeps_active video st ev Hev) as [-> ->]. exact H.
Qed.

Lemma select_activeIsSource (video : AppFull.VideoItem) (same : bool)
      (st : Player.State) (i : nat) :
  Modal.selects video st i = true ->
  (same = true -> ActiveIsSource video st) ->
  ActiveIsSource video (Modal.select env video same st i).
Proof.
  unfold Modal.selects, Modal.select. intros Hsel Hsame.
  destruct (Player.phase st); try discriminate.
  destruct (nth_error (AppFull.sources video) i) as [s|] eqn:Es; [|discriminate].
  destruct (same && Nat.eqb i (Player.activeIx st)) eqn:E.
  - apply andb_true_iff in E as [E _]. auto.
  - unfold ActiveIsSource. rewrite effect_active, effect_activeIx. simpl.
    split; [now symmetry | discriminate].
Qed.

Lemma select_not_selects (video : AppFull.VideoItem) (same : bool)
      (st : Player.State) (i : nat) :
  Modal.selects video st i = false -> Modal.select env video same st i = st.
Proof.
  unfold Modal.selects, Modal.select.
  destruct (Player.phase st); try reflexivity.
  destruct (nth_error (AppFull.sources video) i); [discriminate | reflexivity].
Qed.

Lemma step_modalInv (h : Modal.State) (ev : Modal.Event) :
  ModalInv videos h -> ModalInv videos (Modal.step env videos h ev).
Proof.
  intros H. unfold Modal.step. destruct (Modal.crashed h); [exact H|].
  destruct ev as [j|pev].
  - destruct (nth_error videos j) as [v|] eqn:Ev; [|exact H].
    destruct (Modal.openIx h) as [k|].
    + destruct (Nat.eqb j k); exact H.
    + intros st Hst. simpl in *. injection Hst as <-.
      exists v. split; [assumption|]. exact (run_activeIsSource env v []).
  - destruct (Modal.openIx h) as [k|]; [|exact H].
    destruct (Modal.session h) as [st|] eqn:Es; [|intros st Hst; congruence].
    destruct (nth_error videos k) as [video|] eqn:Ek; [|intros st' Hst; apply H; congruence].
    destruct (H st Es) as [v [Hv Hact]].
    destruct pev as [i|m|]; intros st' Hst; simpl in *; injection Hst as <-.
    + destruct (Modal.selects video st i) eqn:Hsel.
      * exists video. split; [assumption|].
        apply select_activeIsSource; [assumption|].
        intros Hsame. apply Nat.eqb_eq in Hsame. congruence.
      * exists v. split; [assumption|]. now rewrite select_not_selects.
    + exists v. split; [assumption|]. apply activeIsSource_kept; [discriminate | assumption].
    + exists v. split; [assumption|]. apply activeIsSource_kept; [discriminate | assumption].
Qed.

Lemma run_modalInv (evs : list Modal.Event) : ModalInv videos (Modal.run env videos evs).
Proof.
  unfold Modal.run.
  assert (Hfold : forall l h, ModalInv videos h ->
                              ModalInv videos (fold_left (Modal.step env videos) l h)).
  { induction l as [|ev l IH]; intros h Hh; simpl; [assumption|].
    apply IH. now apply step_modalInv. }
  apply Hfold. intros st Hst. discriminate Hst.
Qed.

Lemma select_consistent (video : AppFull.VideoItem) (same : bool)
      (st : Player.State) (i : nat) :
  Consistent st -> Consistent (Modal.select env video same st i).
Proof.
  intros H. unfold Modal.select. destruct (Player.phase st) eqn:Hp; try assumption.
  destruct (nth_error (AppFull.sources video) i) as [s|]; [|assumption].
  destruct (same && Nat.eqb i (Player.activeIx st)); [assumption|].
  destruct (runCleanup_clean st H) as [Hl [He _]].
  apply effect_consistent; simpl; try assumption.
  left. unfold Player.runCleanup. now destruct (Player.cleanup st).
Qed.

Lemma select_nothingPlayable (video : AppFull.VideoItem) (same : bool)
      (st : Player.State) (i : nat) :
  Player.isSupported env = false -> truthy (Player.canPlayType env) = false ->
  Consistent st -> NothingPlayable env st ->
  NothingPlayable env (Modal.select env video same st i).
Proof.
  intros Hc Hn Hcons H. unfold Modal.select.
  destruct (Player.phase st) eqn:Hp; try assumption.
  destruct (nth_error (AppFull.sources video) i) as [s|]; [|assumption].
  destruct (same && Nat.eqb i (Player.activeIx st)); [assumption|].
  destruct (runCleanup_clean st Hcons) as [Hl [He _]].
  destruct (runCleanup_active st) as [_ [_ [Hcp _]]].
  destruct H as [_ [Href _]].
  apply effect_nothingPlayable; simpl; try assumption. now rewrite Hcp.
Qed.

(** An invariant of the sessions of [Player] that the clicks on source
    buttons keep, whatever item they come from, holds in the page. *)
Lemma modal_session_invariant (P : Player.State -> Prop) :
  (forall v, P (Player.openPlayer env v)) ->
  (forall video st ev, P st -> P (Player.step env video st ev)) ->
  (forall video same st i, P st -> P (Modal.select env video same st i)) ->
  forall evs st, Modal.session (Modal.run env videos evs) = Some st -> P st.
Proof.
  intros Hopen Hstep Hsel evs. unfold Modal.run.
  assert (Hfold : forall l h,
             (forall st, Modal.session h = Some st -> P st) ->
             forall st, Modal.session (fold_left (Modal.step env videos) l h) = Some st ->
                        P st).
  { induction l as [|ev l IH]; intros h Hh; simpl; [assumption|].
    apply IH. unfold Modal.step. destruct (Modal.crashed h); [exact Hh|].
    destruct ev as [j|pev].
    - destruct (nth_error videos j) as [v|]; [|exact Hh].
      destruct (Modal.openIx h) as [k|].
      + destruct (Nat.eqb j k); exact Hh.
      + intros st Hst. simpl in Hst. injection Hst as <-. apply Hopen.
    - destruct (Modal.openIx h) as [k|]; [|exact Hh].
      destruct (Modal.session h) as [st0|] eqn:Es; [|intros st Hst; congruence].
      destruct (nth_error videos k) as [video|]; [|intros st Hst; apply Hh; congruence].
      destruct pev as [i|m|]; intros st Hst; simpl in Hst; injection Hst as <-; auto. }
  apply Hfold. intros st Hst. discriminate Hst.
Qed.

End ModalInvariants.

(** The bound on attached resources holds in the page too: opening
    another card while the player is open attaches nothing, and the next
    selection tears down before it attaches. *)
Theorem modal_one_attachment_at_a_time
    (env : Player.Env) (videos : list AppFull.VideoItem) (evs : list Modal.Event)
    (st : Player.State) :
  Modal.session (Modal.run env videos evs) = Some st ->
  Player.attached st <= 1.
Proof.
  intros H. apply consistent_attached.
  revert evs st H. apply modal_session_invariant.
  - intros v. exact (run_consistent env v []).
  - intros video st ev. apply step_consistent.
  - intros video same st i. apply select_consistent.
Qed.

(** So does the absence of a playable path: without streaming client and
    without native support, an active playlist is never ready in the
    page. *)
Theorem modal_no_playable_path_is_not_ready
    (env : Player.Env) (videos : list AppFull.VideoItem) (evs : list Modal.Event)
    (st : Player.State) (s : AppFull.VideoSource) :
  Player.isSupported env = false ->
  Player.canPlayType env = "" ->
  Modal.session (Modal.run env videos evs) = Some st ->
  Player.active st = Some s ->
  AppFull.type s = AppFull.hls ->
  Player.canPlay st = false /\ Player.elSrc st = None /\ Player.live st = [].
Proof.
  intros Hc Hn Hst Ha Ht.
  assert (Hn' : truthy (Player.canPlayType env) = false) by now rewrite Hn.
  assert (H : Consistent st /\ NothingPlayable env st).
  { refine (modal_session_invariant env videos
              (fun st => Consistent st /\ NothingPlayable env st) _ _ _ evs st Hst).
    - intros v. split.
      + exact (run_consistent env v []).
      + exact (run_nothingPlayable env v Hc Hn' []).
    - intros video st0 ev [H1 H2]. split.
      + now apply step_consistent.
      + now apply step_nothingPlayable.
    - intros video same st0 i [H1 H2]. split.
      + now apply select_consistent.
      + now apply select_nothingPlayable. }
  destruct H as [_ [Hl [_ H]]]. destruct (H s Ha Ht). auto.
Qed.

(** X21: the selector marks the active source whenever the player shows
    the item that source was read from.  In every such state of the
    page, on an item with sources, [SourceSelector] renders one button
    per source, in order; a button is drawn as selected exactly when its
    URL is the URL of the active source, so the button of the active
    source is; and when the URLs of the item are pairwise distinct, it
    is the only one.  The page may have opened other cards before, also
    while the player was open. *)
Theorem selector_highlights_active_source
    (env : Player.Env) (videos : list AppFull.VideoItem) (evs : list Modal.Event)
    (j : nat) (video : AppFull.VideoItem) (st : Player.State) :
  Modal.openIx (Modal.run env videos evs) = Some j ->
  Modal.activeOf (Modal.run env videos evs) = j ->
  Modal.session (Modal.run env videos evs) = Some st ->
  nth_error videos j = Some video ->
  AppFull.sources video <> [] ->
  exists cur buttons,
    Player.active st = Some cur /\
    Views.playerSelector video st = Some buttons /\
    map Views.srcTarget buttons = AppFull.sources video /\
    (forall b, In b buttons ->
               (srcHighlighted b = true <->
                AppFull.src (Views.srcTarget b) = AppFull.src cur)) /\
    (exists b,
        nth_error buttons (Player.activeIx st) = Some b /\
        Views.srcTarget b = cur /\ srcHighlighted b = true) /\
    (NoDup (map AppFull.src (AppFull.sources video)) ->
     filter srcHighlighted buttons = [Views.sourceButton cur cur]).
Proof.
  intros _ Hof Hst Hv Hne.
  destruct (run_modalInv env videos evs st Hst) as [v [Hv' [Hix Hnone]]].
  rewrite Hof, Hv in Hv'. injection Hv' as <-.
  destruct (Player.active st) as [cur|] eqn:Ha; [|now elim Hne; apply Hnone].
  exists cur, (map (Views.sourceButton cur) (AppFull.sources video)).
  split; [reflexivity|]. split.
  { unfold Views.playerSelector, Views.SourceSelector. rewrite Ha.
    destruct (AppFull.sources video); [congruence | reflexivity]. }
  split.
  { rewrite map_map. simpl. apply map_id. }
  split.
  { intros b Hb. apply in_map_iff in Hb as [s [<- _]].
    rewrite srcHighlighted_sourceButton. simpl. apply String.eqb_eq. }
  split.
  { exists (Views.sourceButton cur cur). split.
    - apply map_nth_error. now symmetry.
    - split; [reflexivity|]. rewrite srcHighlighted_sourceButton.
      apply String.eqb_refl. }
  intros Hnd. apply filter_sourceButtons_one; [assumption|].
  eapply nth_error_In. symmetry. exact Hix.
Qed.

(** X21, witness: the second card of a catalog of two is opened while
    the player of the first is open, then the MP4 of the second is
    selected. *)
Lemma selector_highlights_active_source_witness :
  let st := Player.effect mseBrowser
              (Player.setActive 1 mp4Source
                 (Player.runCleanup (Player.openPlayer mseBrowser scenarioV1))) in
  exists cur buttons,
    Player.active st = Some cur /\
    Views.playerSelector talk st = Some buttons /\
    map Views.srcTarget buttons = AppFull.sources talk /\
    (forall b, In b buttons ->
               (srcHighlighted b = true <->
                AppFull.src (Views.srcTarget b) = AppFull.src cur)) /\
    (exists b,
        nth_error buttons (Player.activeIx st) = Some b /\
        Views.srcTarget b = cur /\ srcHighlighted b = true) /\
    (NoDup (map AppFull.src (AppFull.sources talk)) ->
     filter srcHighlighted buttons = [Views.sourceButton cur cur]).
Proof.
  apply (selector_highlights_active_source mseBrowser [scenarioV1; talk]
           [Modal.OpenCard 0; Modal.OpenCard 1;
            Modal.InPlayer (Player.SelectSource 1)] 1 talk).
  - reflexivity.
  - reflexivity.
  - reflexivity.
  - reflexivity.
  - discriminate.
Defined.
